(** * sony-slider: the gated content carousel and its email gate

    A shallow embedding of [src/app/page.tsx] (the [Home] component: session
    state, the Swiper event handlers, the two effects, the unlock callback)
    and of [EmailGateModal] ([validateEmail], [handleSubmit]), followed by
    the properties of the browsing controller.

    Conventions of the embedding.
    - A JavaScript string is the list of its UTF-16 code units.
    - Slide indices and pixel coordinates are integers ([Z]).
    - A handler reads the values its closure captured at the last render
      and queues state updates; it is a computation in a small state and
      output monad that receives the rendered values as an argument.
    - After a handler, React renders again and runs the effects whose
      dependencies changed; [step] does exactly that. *)

From Stdlib Require Import ZArith QArith List String Ascii Bool Lia.
From stdpp Require Import base gmap sets.
Import ListNotations.

Open Scope Z_scope.

(* ===================================================================== *)
(** ** JavaScript strings *)
(* ===================================================================== *)

Module JsString.

(** A string value: its UTF-16 code units. *)
Definition t := list N.

(** Code units of an ASCII literal, for writing inputs down. *)
Fixpoint lit (s : string) : t :=
  match s with
  | EmptyString => []
  | String a r => N_of_ascii a :: lit r
  end.

(** ECMAScript WhiteSpace and LineTerminator code points: the set removed
    by [String.prototype.trim] and matched by the class escape [\s]. *)
Definition is_space (c : N) : bool :=
  ((9 <=? c) && (c <=? 13) ||
   (c =? 32) || (c =? 160) || (c =? 5760) ||
   ((8192 <=? c) && (c <=? 8202)) ||
   (c =? 8232) || (c =? 8233) || (c =? 8239) || (c =? 8287) ||
   (c =? 12288) || (c =? 65279))%N.

Fixpoint trimStart (s : t) : t :=
  match s with
  | [] => []
  | c :: r => if is_space c then trimStart r else s
  end.

Definition trimEnd (s : t) : t := rev (trimStart (rev s)).

(** [s.trim()] *)
Definition trim (s : t) : t := trimEnd (trimStart s).

(** Truthiness of a string: only the empty string is falsy. *)
Definition truthy (s : t) : bool :=
  match s with [] => false | _ :: _ => true end.

End JsString.

(* ===================================================================== *)
(** ** Regular expressions, as far as the email pattern needs them *)
(* ===================================================================== *)

Module JsRegExp.

(** A member of a character class. *)
Inductive atom : Type :=
| ASpace            (* \s *)
| AChar (c : N).    (* a literal character *)

Definition atom_has (a : atom) (c : N) : bool :=
  match a with
  | ASpace => JsString.is_space c
  | AChar d => N.eqb c d
  end.

Definition class_has (cls : list atom) (c : N) : bool :=
  existsb (fun a => atom_has a c) cls.

Inductive regex : Type :=
| Void                          (* matches nothing; arises in derivatives *)
| Eps
| Chr (c : N)                   (* one literal character *)
| NotIn (cls : list atom)       (* [^...] *)
| Seq (r1 r2 : regex)
| Alt (r1 r2 : regex)
| Star (r : regex).

(** [r+] *)
Definition Plus (r : regex) : regex := Seq r (Star r).

(** The words a pattern matches from its first to its last character. *)
Inductive lang : regex -> JsString.t -> Prop :=
| L_eps : lang Eps []
| L_chr c : lang (Chr c) [c]
| L_notin cls c : class_has cls c = false -> lang (NotIn cls) [c]
| L_seq r1 r2 s1 s2 : lang r1 s1 -> lang r2 s2 -> lang (Seq r1 r2) (s1 ++ s2)
| L_alt_l r1 r2 s : lang r1 s -> lang (Alt r1 r2) s
| L_alt_r r1 r2 s : lang r2 s -> lang (Alt r1 r2) s
| L_star_nil r : lang (Star r) []
| L_star_app r s1 s2 : lang r s1 -> lang (Star r) s2 -> lang (Star r) (s1 ++ s2).

Fixpoint nullable (r : regex) : bool :=
  match r with
  | Void => false
  | Eps => true
  | Chr _ => false
  | NotIn _ => false
  | Seq r1 r2 => nullable r1 && nullable r2
  | Alt r1 r2 => nullable r1 || nullable r2
  | Star _ => true
  end.

Fixpoint deriv (c : N) (r : regex) : regex :=
  match r with
  | Void => Void
  | Eps => Void
  | Chr d => if N.eqb c d then Eps else Void
  | NotIn cls => if class_has cls c then Void else Eps
  | Seq r1 r2 =>
      if nullable r1
      then Alt (Seq (deriv c r1) r2) (deriv c r2)
      else Seq (deriv c r1) r2
  | Alt r1 r2 => Alt (deriv c r1) (deriv c r2)
  | Star r1 => Seq (deriv c r1) (Star r1)
  end.

(** [/^r$/.test(s)]: without the [m] flag the anchors pin the match to the
    whole input, so the test is membership of the whole string. *)
Fixpoint test (r : regex) (s : JsString.t) : bool :=
  match s with
  | [] => nullable r
  | c :: s' => test (deriv c r) s'
  end.

End JsRegExp.

(* ===================================================================== *)
(** ** The carousel handle and the session state *)
(* ===================================================================== *)

(** What the handlers read from [swiper.touchEventsData]; either field may
    be [undefined]. *)
Record TouchEventsData : Type := {
  startX : option Z;
  currentX : option Z
}.

(** The Swiper instance, reduced to the members [page.tsx] reads or
    writes. *)
Record Swiper : Type := {
  activeIndex : Z;
  allowSlideNext : bool;
  resistanceRatio : Q;
  touchEventsData : option TouchEventsData
}.

(** State of [Home]: the four [useState] cells and the two refs.
    [swiperRef] tells whether [swiperRef.current] holds the instance. *)
Record Home : Type := {
  currentIndex : Z;
  viewedCount : nat;
  hasUnlocked : bool;
  showEmailGate : bool;
  swiperRef : bool;
  viewedItemsRef : gset Z
}.

(** State of [EmailGateModal]. *)
Record Modal : Type := {
  email : JsString.t;
  error : string
}.

Record World : Type := {
  home : Home;
  swiper : Swiper;
  modal : Modal
}.

(** Calls that leave the component: carousel commands, DOM and console
    calls, timers. [SetTimeout c ms] schedules the callback
    [() => swiperRef.current?.c] after [ms] milliseconds. *)
Inductive Call : Type :=
| SlideTo (index speed : Z)
| Update
| UpdateSlides
| PreventDefault
| ConsoleLog (label : string) (arg : JsString.t)
| SetTimeout (callback : Call) (ms : Z).

(* ===================================================================== *)
(** ** Handler monad: state, emitted calls, exceptions *)
(* ===================================================================== *)

(** A handler run: [None] as result means an exception escaped; the
    updates and calls made before it stay. *)
Definition M (A : Type) : Type := World -> option A * World * list Call.

Definition ret {A} (a : A) : M A := fun w => (Some a, w, []).

Definition bind {A B} (m : M A) (k : A -> M B) : M B :=
  fun w =>
    match m w with
    | (Some a, w1, o1) =>
        match k a w1 with
        | (b, w2, o2) => (b, w2, o1 ++ o2)
        end
    | (None, w1, o1) => (None, w1, o1)
    end.

Definition throw {A} : M A := fun w => (None, w, []).
Definition emit (c : Call) : M unit := fun w => (Some tt, w, [c]).
Definition get : M World := fun w => (Some w, w, []).
Definition modify (f : World -> World) : M unit := fun w => (Some tt, f w, []).

Declare Scope handler_scope.
Delimit Scope handler_scope with handler.
Notation "x <- m ;; k" := (bind m (fun x => k))
  (at level 100, m at next level, right associativity) : handler_scope.
Notation "m ;; k" := (bind m (fun _ => k))
  (at level 100, right associativity) : handler_scope.
Open Scope handler_scope.

Definition world_of {A} (r : option A * World * list Call) : World := snd (fst r).
Definition calls_of {A} (r : option A * World * list Call) : list Call := snd r.
Definition value_of {A} (r : option A * World * list Call) : option A := fst (fst r).

(** *** Field updates *)

Definition with_home (f : Home -> Home) (w : World) : World :=
  {| home := f (home w); swiper := swiper w; modal := modal w |}.
Definition with_swiper (f : Swiper -> Swiper) (w : World) : World :=
  {| home := home w; swiper := f (swiper w); modal := modal w |}.
Definition with_modal (f : Modal -> Modal) (w : World) : World :=
  {| home := home w; swiper := swiper w; modal := f (modal w) |}.

Definition set_currentIndex (v : Z) (h : Home) : Home :=
  {| currentIndex := v; viewedCount := viewedCount h;
     hasUnlocked := hasUnlocked h; showEmailGate := showEmailGate h;
     swiperRef := swiperRef h; viewedItemsRef := viewedItemsRef h |}.
Definition set_viewedCount (v : nat) (h : Home) : Home :=
  {| currentIndex := currentIndex h; viewedCount := v;
     hasUnlocked := hasUnlocked h; showEmailGate := showEmailGate h;
     swiperRef := swiperRef h; viewedItemsRef := viewedItemsRef h |}.
Definition set_hasUnlocked (v : bool) (h : Home) : Home :=
  {| currentIndex := currentIndex h; viewedCount := viewedCount h;
     hasUnlocked := v; showEmailGate := showEmailGate h;
     swiperRef := swiperRef h; viewedItemsRef := viewedItemsRef h |}.
Definition set_showEmailGate (v : bool) (h : Home) : Home :=
  {| currentIndex := currentIndex h; viewedCount := viewedCount h;
     hasUnlocked := hasUnlocked h; showEmailGate := v;
     swiperRef := swiperRef h; viewedItemsRef := viewedItemsRef h |}.
Definition set_swiperRef (v : bool) (h : Home) : Home :=
  {| currentIndex := currentIndex h; viewedCount := viewedCount h;
     hasUnlocked := hasUnlocked h; showEmailGate := showEmailGate h;
     swiperRef := v; viewedItemsRef := viewedItemsRef h |}.
Definition set_viewedItemsRef (v : gset Z) (h : Home) : Home :=
  {| currentIndex := currentIndex h; viewedCount := viewedCount h;
     hasUnlocked := hasUnlocked h; showEmailGate := showEmailGate h;
     swiperRef := swiperRef h; viewedItemsRef := v |}.

Definition set_activeIndex (v : Z) (s : Swiper) : Swiper :=
  {| activeIndex := v; allowSlideNext := allowSlideNext s;
     resistanceRatio := resistanceRatio s; touchEventsData := touchEventsData s |}.
Definition set_allowSlideNext (v : bool) (s : Swiper) : Swiper :=
  {| activeIndex := activeIndex s; allowSlideNext := v;
     resistanceRatio := resistanceRatio s; touchEventsData := touchEventsData s |}.
Definition set_resistanceRatio (v : Q) (s : Swiper) : Swiper :=
  {| activeIndex := activeIndex s; allowSlideNext := allowSlideNext s;
     resistanceRatio := v; touchEventsData := touchEventsData s |}.
Definition set_touchEventsData (v : option TouchEventsData) (s : Swiper) : Swiper :=
  {| activeIndex := activeIndex s; allowSlideNext := allowSlideNext s;
     resistanceRatio := resistanceRatio s; touchEventsData := v |}.

Definition set_email (v : JsString.t) (m : Modal) : Modal :=
  {| email := v; error := error m |}.
Definition set_error (v : string) (m : Modal) : Modal :=
  {| email := email m; error := v |}.

(** *** The state setters and carousel members, as the source names them *)

Definition setCurrentIndex (v : Z) : M unit := modify (with_home (set_currentIndex v)).
Definition setViewedCount (v : nat) : M unit := modify (with_home (set_viewedCount v)).
Definition setHasUnlocked (v : bool) : M unit := modify (with_home (set_hasUnlocked v)).
Definition setShowEmailGate (v : bool) : M unit := modify (with_home (set_showEmailGate v)).
Definition setEmail (v : JsString.t) : M unit := modify (with_modal (set_email v)).
Definition setError (v : string) : M unit := modify (with_modal (set_error v)).

Definition swiper_activeIndex : M Z := w <- get ;; ret (activeIndex (swiper w)).
Definition swiper_touchEventsData : M (option TouchEventsData) :=
  w <- get ;; ret (touchEventsData (swiper w)).
Definition swiperRef_current : M bool := w <- get ;; ret (swiperRef (home w)).

(** Modelled from the spec: Swiper's [slideTo] is library code outside the
    repository. The spec's carousel capability "command an immediate
    (zero-duration) or animated (fixed-duration) transition to an arbitrary
    index" is taken as: the call is issued and the instance then reports
    that index as its active one. The events Swiper emits in turn arrive as
    separate events of the environment. *)
Definition swiper_slideTo (index speed : Z) : M unit :=
  emit (SlideTo index speed) ;;
  modify (with_swiper (set_activeIndex index)).

Definition swiper_update : M unit := emit Update.
Definition swiper_updateSlides : M unit := emit UpdateSlides.

Definition viewedItems_has (i : Z) : M bool :=
  w <- get ;; ret (bool_decide (i ∈ viewedItemsRef (home w))).
Definition viewedItems_add (i : Z) : M unit :=
  modify (with_home (fun h => set_viewedItemsRef ({[ i ]} ∪ viewedItemsRef h) h)).
Definition viewedItems_size : M nat :=
  w <- get ;; ret (size (viewedItemsRef (home w))).

(** [a || b] on numbers that may be [undefined]: [undefined] and [0] are
    falsy. *)
Definition js_or (a : option Z) (b : Z) : Z :=
  match a with
  | Some v => if v =? 0 then b else v
  | None => b
  end.

(** The event handed to [onTouchMove], reduced to [touches[i].clientX]. A
    DOM touch event has a [touches] list; another event (the pointer event
    of a mouse or pen drag) has no such member. *)
Record Touch : Type := { clientX : Z }.
Record TouchEvent : Type := { touches : option (list Touch) }.

(* ===================================================================== *)
(** ** [Home]: effects and handlers (src/app/page.tsx) *)
(* ===================================================================== *)

Section Render.

(** The state values of the render whose closures are running. *)
Variable render : Home.

(** [useEffect(..., [currentIndex])], lines 49-54. *)
Definition viewedEffect : M unit :=
  seen <- viewedItems_has (currentIndex render) ;;
  if negb seen then
    viewedItems_add (currentIndex render) ;;
    n <- viewedItems_size ;;
    setViewedCount n
  else ret tt.

(** [useEffect(..., [hasUnlocked, currentIndex])], lines 60-72. *)
Definition swiperEffect : M unit :=
  attached <- swiperRef_current ;;
  if attached then
    let canSlideNext := hasUnlocked render || (currentIndex render <? 10) in
    modify (with_swiper (set_allowSlideNext canSlideNext)) ;;
    modify (with_swiper
              (set_resistanceRatio (if hasUnlocked render then 0.85%Q else 0%Q))) ;;
    swiper_update ;;
    swiper_updateSlides
  else ret tt.

(** Lines 78-89. *)
Definition handleSlideChange : M unit :=
  newIndex <- swiper_activeIndex ;;
  if negb (hasUnlocked render) && (10 <=? newIndex) then
    setShowEmailGate true ;;
    swiper_slideTo 9 0
  else
    setCurrentIndex newIndex.

(** Lines 95-109. *)
Definition handleSlideChangeTransitionStart : M unit :=
  if hasUnlocked render then ret tt
  else
    targetIndex <- swiper_activeIndex ;;
    if 10 <=? targetIndex then
      setShowEmailGate true ;;
      swiper_slideTo 9 0
    else ret tt.

(** Lines 115-129. *)
Definition handleTouchEnd : M unit :=
  active <- swiper_activeIndex ;;
  if negb (hasUnlocked render) && (active =? 9) then
    data <- swiper_touchEventsData ;;
    match data with
    | Some {| startX := Some sx; currentX := cx |} =>
        let current := js_or cx sx in
        let deltaX := current - sx in
        if deltaX <? -50 then
          setShowEmailGate true ;;
          swiper_slideTo 9 0
        else ret tt
    | _ => ret tt
    end
  else ret tt.

(** Lines 134-148. [event.touches[0]] (line 136) throws when the event has
    no [touches]; reading [clientX] of a missing first touch (line 139)
    throws too, but is reached only with a start coordinate. *)
Definition handleTouchMove (event : TouchEvent) : M unit :=
  active <- swiper_activeIndex ;;
  if negb (hasUnlocked render) && (active =? 9) then
    match touches event with
    | None => throw
    | Some list =>
        let touch := head list in
        data <- swiper_touchEventsData ;;
        match data with
        | Some {| startX := Some sx; currentX := _ |} =>
            match touch with
            | None => throw
            | Some t =>
                let deltaX := clientX t - sx in
                if deltaX <? -50 then
                  setShowEmailGate true ;;
                  emit PreventDefault
                else ret tt
            end
        | _ => ret tt
        end
    end
  else ret tt.

(** Lines 154-175. *)
Definition handleEmailSubmit (email : JsString.t) : M unit :=
  emit (ConsoleLog "Email submitted:" email) ;;
  setHasUnlocked true ;;
  setShowEmailGate false ;;
  attached <- swiperRef_current ;;
  if attached then
    modify (with_swiper (set_allowSlideNext true)) ;;
    swiper_update ;;
    if currentIndex render =? 9 then
      emit (SetTimeout (SlideTo 10 300) 100)
    else ret tt
  else ret tt.

(** The [onSwiper] prop, lines 190-194. *)
Definition onSwiper : M unit :=
  modify (with_home (set_swiperRef true)) ;;
  modify (with_swiper (set_allowSlideNext true)).

End Render.

(* ===================================================================== *)
(** ** [EmailGateModal] (second part of ContentControls.tsx) *)
(* ===================================================================== *)

Import JsRegExp.

Definition at_sign : N := 64.
Definition full_stop : N := 46.

(** The class [[^\s@]]. *)
Definition not_space_at : regex := NotIn [ASpace; AChar at_sign].

(** [/^[^\s@]+@[^\s@]+\.[^\s@]+$/] *)
Definition emailRegex : regex :=
  Seq (Plus not_space_at)
      (Seq (Chr at_sign)
           (Seq (Plus not_space_at)
                (Seq (Chr full_stop) (Plus not_space_at)))).

Definition validateEmail (emailValue : JsString.t) : bool :=
  test emailRegex emailValue.

Section ModalRender.

(** The modal's props and the [email] cell of the running render. *)
Variable onSubmit : JsString.t -> M unit.
Variable rendered : Modal.

(** [handleSubmit], lines 189-208. *)
Definition handleSubmit : M unit :=
  emit PreventDefault ;;
  setError EmptyString ;;
  let trimmedEmail := JsString.trim (email rendered) in
  if negb (JsString.truthy trimmedEmail) then
    setError "Please enter your email address."
  else if negb (validateEmail trimmedEmail) then
    setError "Please enter a valid email address."
  else
    onSubmit trimmedEmail ;;
    setEmail [].

(** The input's [onChange], lines 231-234. *)
Definition onChange (value : JsString.t) : M unit :=
  setEmail value ;;
  setError EmptyString.

End ModalRender.

(* ===================================================================== *)
(** ** Events and the render cycle *)
(* ===================================================================== *)

(** What reaches the page from outside. A slide event carries the index
    the carousel reports as [activeIndex] when it emits the event; a touch
    event carries the gesture data the carousel holds at that moment. *)
Inductive Event : Type :=
| Mount
| SlideChange (index : Z)
| SlideChangeTransitionStart (index : Z)
| TouchMove (data : option TouchEventsData) (event : TouchEvent)
| TouchEnd (data : option TouchEventsData)
| Change (value : JsString.t)
| Submit.

(** An event can arrive only from something that exists: carousel events
    once the instance has been handed to [onSwiper], which happens once;
    form events while the modal renders its form ([if (!isOpen) return
    null]). *)
Definition deliverable (w : World) (e : Event) : bool :=
  match e with
  | Mount => negb (swiperRef (home w))
  | SlideChange _ | SlideChangeTransitionStart _
  | TouchMove _ _ | TouchEnd _ => swiperRef (home w)
  | Change _ | Submit => showEmailGate (home w)
  end.

(** The handler an event runs, with the closures of the current render. On
    mount, [onSwiper] is taken to run before the first run of both effects;
    either order gives the same carousel flags, [currentIndex] being 0. *)
Definition handle (e : Event) : M unit :=
  w <- get ;;
  let render := home w in
  match e with
  | Mount =>
      onSwiper ;; viewedEffect render ;; swiperEffect render
  | SlideChange i =>
      modify (with_swiper (set_activeIndex i)) ;; handleSlideChange render
  | SlideChangeTransitionStart i =>
      modify (with_swiper (set_activeIndex i)) ;;
      handleSlideChangeTransitionStart render
  | TouchMove data event =>
      modify (with_swiper (set_touchEventsData data)) ;;
      handleTouchMove render event
  | TouchEnd data =>
      modify (with_swiper (set_touchEventsData data)) ;;
      handleTouchEnd render
  | Change value => onChange value
  | Submit => handleSubmit (handleEmailSubmit render) (modal w)
  end.

(** The render after a handler: an effect runs when one of its
    dependencies differs from the previous render. *)
Definition commit (prev : Home) : M unit :=
  w <- get ;;
  let render := home w in
  let index_changed := negb (currentIndex render =? currentIndex prev) in
  let unlocked_changed := negb (eqb (hasUnlocked render) (hasUnlocked prev)) in
  (if index_changed then viewedEffect render else ret tt) ;;
  (if unlocked_changed || index_changed then swiperEffect render else ret tt).

(** One event: its handler, then the render it causes. An exception in a
    handler loses nothing that was queued before it. *)
Definition step (w : World) (e : Event) : World * list Call :=
  if deliverable w e then
    let r1 := handle e w in
    let r2 := commit (home w) (world_of r1) in
    (world_of r2, calls_of r1 ++ calls_of r2)
  else (w, []).

Definition after (w : World) (e : Event) : World := fst (step w e).

(** A run of events, oldest first. *)
Definition run (w : World) (es : list Event) : World := fold_left after es w.

(** The first render of [Home], with the props given to [<Swiper>]; the
    carousel starts on slide 0, where the specification has the controller
    start. *)
Definition initial : World :=
  {| home := {| currentIndex := 0; viewedCount := 1;
                hasUnlocked := false; showEmailGate := false;
                swiperRef := false; viewedItemsRef := {[ 0 ]} |};
     swiper := {| activeIndex := 0; allowSlideNext := true;
                  resistanceRatio := 0%Q; touchEventsData := None |};
     modal := {| email := []; error := EmptyString |} |}.

Inductive reachable : World -> Prop :=
| reach_initial : reachable initial
| reach_step w e : reachable w -> reachable (after w e).

(* ===================================================================== *)
(** ** Vocabulary of the statements *)
(* ===================================================================== *)

(** *** Worlds a step leads to *)

(** The gate opens and the carousel is sent back to slide 9. *)
Definition suspend (w : World) : World :=
  with_swiper (set_activeIndex 9) (with_home (set_showEmailGate true) w).

(** Both effects run for the rendered index: the index joins the viewed
    items, and an attached carousel gets its forward permission and its
    resistance recomputed. *)
Definition refresh (w : World) : World :=
  let h := home w in
  let i := currentIndex h in
  let fresh := negb (bool_decide (i ∈ viewedItemsRef h)) in
  {| home := {| currentIndex := i;
                viewedCount := if fresh then size ({[ i ]} ∪ viewedItemsRef h)
                               else viewedCount h;
                hasUnlocked := hasUnlocked h; showEmailGate := showEmailGate h;
                swiperRef := swiperRef h;
                viewedItemsRef := if fresh then {[ i ]} ∪ viewedItemsRef h
                                  else viewedItemsRef h |};
     swiper := if swiperRef h
               then {| activeIndex := activeIndex (swiper w);
                       allowSlideNext := hasUnlocked h || (i <? 10);
                       resistanceRatio := if hasUnlocked h then 0.85%Q else 0%Q;
                       touchEventsData := touchEventsData (swiper w) |}
               else swiper w;
     modal := modal w |}.

(** The carousel settled on slide [i] and the page followed. *)
Definition arrive (i : Z) (w : World) : World :=
  refresh (with_home (set_currentIndex i) (with_swiper (set_activeIndex i) w)).

Definition mounted (w : World) : World :=
  refresh (with_home (set_swiperRef true) w).

(** The world after an accepted submission. *)
Definition unlock (w : World) : World :=
  let h := home w in
  let s := swiper w in
  {| home := {| currentIndex := currentIndex h; viewedCount := viewedCount h;
                hasUnlocked := true; showEmailGate := false;
                swiperRef := swiperRef h; viewedItemsRef := viewedItemsRef h |};
     swiper := if swiperRef h
               then {| activeIndex := activeIndex s; allowSlideNext := true;
                       resistanceRatio :=
                         if hasUnlocked h then resistanceRatio s else 0.85%Q;
                       touchEventsData := touchEventsData s |}
               else s;
     modal := {| email := []; error := EmptyString |} |}.

(** *** Touch gestures *)

(** The horizontal travel each touch handler computes, when the gesture
    data has a start coordinate (and, for a move, the event has a touch).
    [handleTouchEnd] takes [currentX || startX] as the end point. *)
Definition touchEnd_deltaX (data : option TouchEventsData) : option Z :=
  match data with
  | Some {| startX := Some sx; currentX := cx |} => Some (js_or cx sx - sx)
  | _ => None
  end.

Definition touchMove_deltaX (data : option TouchEventsData) (event : TouchEvent)
  : option Z :=
  match data, touches event with
  | Some {| startX := Some sx; currentX := _ |}, Some (t :: _) =>
      Some (clientX t - sx)
  | _, _ => None
  end.

(** [deltaX < -50] *)
Definition past_threshold (deltaX : option Z) : bool :=
  match deltaX with Some d => d <? -50 | None => false end.

(** Locked, with the carousel resting on slide 9. *)
Definition at_limit (w : World) : bool :=
  negb (hasUnlocked (home w)) && (activeIndex (swiper w) =? 9).

(** *** Navigation *)

(** A report of slide [i >= 10], at either of the two slide events. *)
Definition attempt (e : Event) : Prop :=
  match e with
  | SlideChange i | SlideChangeTransitionStart i => 10 <= i
  | _ => False
  end.

(** The session state of the specification. *)
Definition session (w : World) : Z * gset Z * bool * bool :=
  (currentIndex (home w), viewedItemsRef (home w),
   hasUnlocked (home w), showEmailGate (home w)).

(** An index no slide of a catalog of [catalogLength] items has.
    [contentData] itself is not part of the sources; its length is a
    parameter. *)
Definition out_of_range (catalogLength i : Z) : bool :=
  (i <? 0) || (catalogLength <=? i).

(** A target among the first ten slides. *)
Definition in_first_ten (t : Z) : Prop := 0 <= t <= 9.

(** The timer [handleEmailSubmit] sets: [slideTo(10, 300)] after 100 ms. *)
Definition deferred_advance : Call := SetTimeout (SlideTo 10 300) 100.

(** *** The gate's verdict *)

Definition msg_empty : string := "Please enter your email address.".
Definition msg_invalid : string := "Please enter a valid email address.".

(** A run [[^...]+]: a non-empty word of characters outside the class. *)
Definition outside (cls : list atom) (s : JsString.t) : Prop :=
  s <> [] /\ Forall (fun c => class_has cls c = false) s.

(** [run @ run . run], each run outside [cls]. *)
Definition email_shape (cls : list atom) (s : JsString.t) : Prop :=
  exists a b c,
    s = a ++ at_sign :: b ++ full_stop :: c /\
    outside cls a /\ outside cls b /\ outside cls c.

(** The form both patterns share: three runs outside a class, joined by
    [@] and [.]. *)
Definition email_pattern (cls : list atom) : regex :=
  Seq (Plus (NotIn cls))
      (Seq (Chr at_sign)
           (Seq (Plus (NotIn cls))
                (Seq (Chr full_stop) (Plus (NotIn cls))))).

(** The pattern in the words of the specification: "non-space characters,
    @, non-space characters, ., non-space characters". *)
Definition non_space : regex := NotIn [ASpace].

Definition specPattern : regex :=
  Seq (Plus non_space)
      (Seq (Chr at_sign)
           (Seq (Plus non_space)
                (Seq (Chr full_stop) (Plus non_space)))).

(** The submission of the text in the input was turned down: an error
    message is on display afterwards. *)
Definition rejected (w : World) : Prop :=
  error (modal (after w Submit)) <> EmptyString.

(** *** Invariant of the reachable worlds *)

Record Inv (w : World) : Prop := {
  inv_locked : hasUnlocked (home w) = false -> currentIndex (home w) <= 9;
  inv_gate : showEmailGate (home w) = true -> hasUnlocked (home w) = false;
  inv_attached : showEmailGate (home w) = true -> swiperRef (home w) = true;
  inv_seen : currentIndex (home w) ∈ viewedItemsRef (home w);
  inv_count : viewedCount (home w) = size (viewedItemsRef (home w));
  inv_forward : swiperRef (home w) = true ->
    allowSlideNext (swiper w) =
      hasUnlocked (home w) || (currentIndex (home w) <? 10);
  inv_resistance : swiperRef (home w) = true ->
    resistanceRatio (swiper w) = if hasUnlocked (home w) then 0.85%Q else 0%Q
}.

(** *** Sample worlds and inputs *)

(** The page once the carousel is mounted, at slide 0. *)
Definition browsing : World := after initial Mount.

(** Ten items viewed, resting on slide 9. *)
Definition at_nine : World :=
  run browsing (map SlideChange [1; 2; 3; 4; 5; 6; 7; 8; 9]).

(** The eleventh item was asked for: the gate is open. *)
Definition gated : World := after at_nine (SlideChange 10).

Definition unlocked : World :=
  run gated [Change (JsString.lit "a@b.co"); Submit].

Definition sample_email : JsString.t := JsString.lit "user@example.com".
Definition not_an_email : JsString.t := JsString.lit "not-an-email".
Definition two_at_signs : JsString.t := JsString.lit "a@b@c.d".

Definition back_and_forth : list Z := [3; 2; 3].

Definition swipe_left : option TouchEventsData :=
  Some {| startX := Some 200; currentX := Some 120 |}.
Definition finger_at_120 : TouchEvent :=
  {| touches := Some [ {| clientX := 120 |} ] |}.

(* ===================================================================== *)
(** ** What is rendered *)
(* ===================================================================== *)

(** [ProgressIndicator] (ProgressIndicator.tsx): the text "Item X of Y" and
    the lock badge. *)
Inductive LockBadge : Type := BadgeUnlocked | BadgeLocked.

Record ProgressView : Type := {
  itemNumber : Z;
  itemTotal : Z;
  badge : LockBadge
}.

Definition ProgressIndicator (currentIndex totalItems : Z) (isUnlocked : bool)
  : ProgressView :=
  let currentItemNumber := currentIndex + 1 in
  {| itemNumber := currentItemNumber;
     itemTotal := totalItems;
     badge := if isUnlocked then BadgeUnlocked else BadgeLocked |}.

(** Truthiness of a message: only the empty one is falsy. *)
Definition shown (msg : string) : bool :=
  match msg with EmptyString => false | String _ _ => true end.

(** What [EmailGateModal] renders: nothing while closed, else the form with
    the input's value, the error line when there is a message, and the red
    border of the input in that case. *)
Record FormView : Type := {
  inputValue : JsString.t;
  errorLine : option string;
  redBorder : bool
}.

Definition EmailGateModal (isOpen : bool) (m : Modal) : option FormView :=
  if negb isOpen then None
  else Some {| inputValue := email m;
               errorLine := if shown (error m) then Some (error m) else None;
               redBorder := shown (error m) |}.

(** What [Home] hands to its children (page.tsx, lines 177-224);
    [catalogLength] stands for [contentData.length]. *)
Record HomeView : Type := {
  progress : ProgressView;
  slideCount : Z;
  gateForm : option FormView
}.

Definition Home_view (catalogLength : Z) (w : World) : HomeView :=
  {| progress := ProgressIndicator (currentIndex (home w)) catalogLength
                                   (hasUnlocked (home w));
     slideCount := catalogLength;
     gateForm := EmailGateModal (showEmailGate (home w)) (modal w) |}.

(** *** Further vocabulary *)

(** The carousel reports no negative index. *)
Definition reports_slide (e : Event) : Prop :=
  match e with
  | SlideChange i | SlideChangeTransitionStart i => 0 <= i
  | _ => True
  end.

Definition touch_event (e : Event) : Prop :=
  match e with
  | TouchMove _ _ | TouchEnd _ => True
  | _ => False
  end.

(** A form event that cannot lead to an accepted submission: typing a text
    the gate turns down, or submitting. *)
Definition futile (e : Event) : Prop :=
  match e with
  | Change value => validateEmail (JsString.trim value) = false
  | Submit => True
  | _ => False
  end.

(** The touch gesture that opens the gate at event [e], if any. *)
Definition opening_touch (e : Event) : bool :=
  match e with
  | TouchMove data event => past_threshold (touchMove_deltaX data event)
  | TouchEnd data => past_threshold (touchEnd_deltaX data)
  | _ => false
  end.

(** The slides a locked session may show. *)
Definition first_ten : gset Z := list_to_set [0; 1; 2; 3; 4; 5; 6; 7; 8; 9].

(** Empty, or beginning with a character that is not white space. *)
Definition starts_clean (l : JsString.t) : Prop :=
  match l with [] => True | c :: _ => JsString.is_space c = false end.

Definition padded_email : JsString.t := JsString.lit "  user@example.com ".

Definition busy_session : list Event :=
  Mount :: map SlideChange [1; 2; 3; 4; 5; 6; 7; 8; 9; 10; 3; 12; 9].

Definition futile_tries : list Event :=
  [Submit; Change two_at_signs; Submit; Change []; Submit].

Definition tap : option TouchEventsData :=
  Some {| startX := Some 200; currentX := None |}.
Definition no_finger : TouchEvent := {| touches := Some [] |}.

(** The event leaves [handleTouchMove] nothing to read: it has no [touches]
    at all, or an empty list of them while the gesture data has a start
    coordinate to compare with. *)
Definition unreadable (data : option TouchEventsData) (event : TouchEvent) : Prop :=
  touches event = None \/
  (touches event = Some [] /\
   exists d sx, data = Some d /\ startX d = Some sx).

(** A drag that comes as a pointer event. *)
Definition pointer_drag : TouchEvent := {| touches := None |}.


(* ===================================================================== *)
(** ** Proof tactics *)
(* ===================================================================== *)

(** Runs the monad and the record updates on a world whose fields are
    laid open; the tests on indices and sets are left to the proof. *)
Ltac handler_unfold :=
  cbv beta iota zeta delta
    [step after handle commit deliverable world_of calls_of value_of
     bind ret get modify emit throw
     viewedEffect swiperEffect handleSlideChange handleSlideChangeTransitionStart
     handleTouchEnd handleTouchMove handleEmailSubmit onSwiper handleSubmit onChange
     setCurrentIndex setViewedCount setHasUnlocked setShowEmailGate setEmail setError
     swiper_activeIndex swiper_touchEventsData swiperRef_current swiper_slideTo
     swiper_update swiper_updateSlides viewedItems_has viewedItems_add viewedItems_size
     with_home with_swiper with_modal
     set_currentIndex set_viewedCount set_hasUnlocked set_showEmailGate set_swiperRef
     set_viewedItemsRef set_activeIndex set_allowSlideNext set_resistanceRatio
     set_touchEventsData set_email set_error
     home swiper modal currentIndex viewedCount hasUnlocked showEmailGate swiperRef
     viewedItemsRef activeIndex allowSlideNext resistanceRatio touchEventsData
     email error startX currentX touches clientX
     fst snd negb andb orb Bool.eqb head hd_error app].

Ltac open_world w :=
  destruct w as [[ci vc hu sg sr vi] [ai asn rr ted] [em er]].

(** Lays the invariant of an opened world out as hypotheses. *)
Ltac open_inv H :=
  destruct H as [Hlocked Hgate Hattached Hseen Hcount Hforward Hresistance];
  revert Hlocked Hgate Hattached Hseen Hcount Hforward Hresistance;
  handler_unfold;
  intros Hlocked Hgate Hattached Hseen Hcount Hforward Hresistance.

(** Closes the case of a step that leaves the state cells as they were. *)
Ltac same_state w := left; open_world w; split; reflexivity.

(* ===================================================================== *)
(** ** The matcher decides the language of a pattern *)
(* ===================================================================== *)

Module RegExpFacts.
Import JsRegExp.

Lemma nullable_lang r : nullable r = true <-> lang r [].
Proof.
  induction r as [| | c | cls | r1 IH1 r2 IH2 | r1 IH1 r2 IH2 | r1 IH1]; simpl.
  - split; [discriminate | inversion 1].
  - split; [constructor | reflexivity].
  - split; [discriminate | inversion 1].
  - split; [discriminate | inversion 1].
  - rewrite andb_true_iff, IH1, IH2. split.
    + intros [H1 H2]. change (@nil N) with (@nil N ++ @nil N).
      constructor; assumption.
    + intros H. inversion H as [| | |? ? s1 s2 L1 L2 Er1 E| | | |].
      apply app_eq_nil in E as [-> ->]. split; assumption.
  - rewrite orb_true_iff, IH1, IH2. split.
    + intros [H|H]; [apply L_alt_l | apply L_alt_r]; assumption.
    + intros H. inversion H; subst; [left | right]; assumption.
  - split; [constructor | reflexivity].
Qed.

Lemma lang_star_cons r c s :
  lang (Star r) (c :: s) ->
  exists s1 s2, s = s1 ++ s2 /\ lang r (c :: s1) /\ lang (Star r) s2.
Proof.
  intros H. remember (Star r) as r' eqn:Er. remember (c :: s) as w eqn:Ew.
  revert s Ew.
  induction H; intros s' Ew; try discriminate.
  injection Er as ->.
  destruct s1 as [|d s1]; simpl in Ew.
  - apply IHlang2; auto.
  - injection Ew as -> <-. exists s1, s2. auto.
Qed.

Lemma deriv_sound c r : forall s, lang (deriv c r) s -> lang r (c :: s).
Proof.
  induction r; simpl; intros s H; try solve [inversion H].
  - destruct (N.eqb_spec c c0); inversion H; subst. constructor.
  - destruct (class_has cls c) eqn:E; inversion H; subst. constructor; assumption.
  - destruct (nullable r1) eqn:E.
    + inversion H as [| | | |? ? ? L|? ? ? L| |]; subst.
      * inversion L; subst.
        change (c :: ?a ++ ?b) with ((c :: a) ++ b). constructor; auto.
      * change (c :: s) with ([] ++ c :: s).
        constructor; [apply nullable_lang; assumption | auto].
    + inversion H; subst.
      change (c :: ?a ++ ?b) with ((c :: a) ++ b). constructor; auto.
  - inversion H; subst; [apply L_alt_l | apply L_alt_r]; auto.
  - inversion H; subst.
    change (c :: ?a ++ ?b) with ((c :: a) ++ b). constructor; auto.
Qed.

Lemma deriv_complete c r : forall s, lang r (c :: s) -> lang (deriv c r) s.
Proof.
  induction r; simpl; intros s H.
  - inversion H.
  - inversion H.
  - inversion H; subst. rewrite N.eqb_refl. constructor.
  - inversion H as [| |? ? E| | | | |]; subst. rewrite E. constructor.
  - inversion H as [| | |? ? s1 s2 L1 L2 Er1 E| | | |].
    destruct s1 as [|d s1]; simpl in E.
    + subst s2. apply nullable_lang in L1. rewrite L1.
      apply L_alt_r. auto.
    + injection E as -> <-.
      destruct (nullable r1);
        [apply L_alt_l |]; constructor; auto.
  - inversion H; subst; [apply L_alt_l | apply L_alt_r]; auto.
  - apply lang_star_cons in H as (s1 & s2 & -> & L1 & L2).
    constructor; auto.
Qed.

Lemma test_lang r s : test r s = true <-> lang r s.
Proof.
  revert r. induction s as [|c s IH]; intros r; simpl.
  - apply nullable_lang.
  - rewrite IH. split; [apply deriv_sound | apply deriv_complete].
Qed.

Lemma lang_star_notin cls s :
  lang (Star (NotIn cls)) s <-> Forall (fun c => class_has cls c = false) s.
Proof.
  split.
  - intros H. remember (Star (NotIn cls)) as r eqn:Er.
    induction H; try discriminate.
    + constructor.
    + injection Er as ->. inversion H; subst. simpl. constructor; auto.
  - induction 1 as [|c s Hc _ IH].
    + constructor.
    + change (c :: s) with ([c] ++ s). constructor; [constructor|]; assumption.
Qed.

Lemma lang_plus_notin cls s : lang (Plus (NotIn cls)) s <-> outside cls s.
Proof.
  unfold Plus, outside. split.
  - intros H. inversion H as [| | |? ? s1 s2 L1 L2| | | |]; subst.
    inversion L1; subst. simpl. split; [discriminate|].
    constructor; [assumption | apply lang_star_notin; assumption].
  - intros [Hne Hall]. destruct s as [|c s]; [congruence|].
    inversion Hall; subst.
    change (c :: s) with ([c] ++ s).
    constructor; [constructor; assumption | apply lang_star_notin; assumption].
Qed.

Lemma lang_seq r1 r2 s :
  lang (Seq r1 r2) s <-> exists s1 s2, s = s1 ++ s2 /\ lang r1 s1 /\ lang r2 s2.
Proof.
  split.
  - intros H. inversion H; subst. eauto.
  - intros (s1 & s2 & -> & H1 & H2). constructor; assumption.
Qed.

Lemma lang_chr c s : lang (Chr c) s <-> s = [c].
Proof.
  split.
  - intros H. inversion H. reflexivity.
  - intros ->. constructor.
Qed.

End RegExpFacts.

(* ===================================================================== *)
(** ** One step, event by event *)
(* ===================================================================== *)

Lemma step_undeliverable w e : deliverable w e = false -> step w e = (w, []).
Proof. unfold step. intros ->. reflexivity. Qed.

Lemma step_Mount w :
  swiperRef (home w) = false ->
  step w Mount = (mounted w, [Update; UpdateSlides]).
Proof.
  open_world w. cbn [home swiperRef]. intros ->.
  unfold mounted, refresh. handler_unfold.
  destruct (bool_decide (ci ∈ vi)); handler_unfold;
    rewrite ?Z.eqb_refl; destruct hu; handler_unfold; reflexivity.
Qed.

Lemma step_SlideChange w i :
  swiperRef (home w) = true ->
  step w (SlideChange i) =
    if negb (hasUnlocked (home w)) && (10 <=? i) then (suspend w, [SlideTo 9 0])
    else if i =? currentIndex (home w) then (with_swiper (set_activeIndex i) w, [])
    else (arrive i w, [Update; UpdateSlides]).
Proof.
  open_world w. cbn [home swiperRef hasUnlocked currentIndex]. intros ->.
  unfold suspend, arrive, refresh. handler_unfold.
  destruct hu, (10 <=? i), (i =? ci) eqn:E; handler_unfold;
    rewrite ?E, ?Z.eqb_refl; handler_unfold;
    try (apply Z.eqb_eq in E; subst i); try reflexivity.
  all: destruct (bool_decide (i ∈ vi)); handler_unfold; reflexivity.
Qed.

Lemma step_SlideChangeTransitionStart w i :
  swiperRef (home w) = true ->
  step w (SlideChangeTransitionStart i) =
    if negb (hasUnlocked (home w)) && (10 <=? i) then (suspend w, [SlideTo 9 0])
    else (with_swiper (set_activeIndex i) w, []).
Proof.
  open_world w. cbn [home swiperRef hasUnlocked currentIndex]. intros ->.
  unfold suspend. handler_unfold.
  destruct hu, (10 <=? i); handler_unfold;
    rewrite ?Z.eqb_refl; handler_unfold; reflexivity.
Qed.

Lemma step_TouchEnd w data :
  swiperRef (home w) = true ->
  step w (TouchEnd data) =
    let w1 := with_swiper (set_touchEventsData data) w in
    if at_limit w && past_threshold (touchEnd_deltaX data)
    then (suspend w1, [SlideTo 9 0])
    else (w1, []).
Proof.
  open_world w. cbn [home swiperRef hasUnlocked currentIndex]. intros ->.
  unfold suspend, at_limit, past_threshold, touchEnd_deltaX. handler_unfold.
  destruct hu, (ai =? 9), data as [[[sx|] cx]|]; handler_unfold;
    rewrite ?Z.eqb_refl; handler_unfold; try reflexivity.
  destruct (_ <? -50); handler_unfold;
    rewrite ?Z.eqb_refl; handler_unfold; reflexivity.
Qed.

Lemma step_TouchMove w data event :
  swiperRef (home w) = true ->
  step w (TouchMove data event) =
    let w1 := with_swiper (set_touchEventsData data) w in
    if at_limit w && past_threshold (touchMove_deltaX data event)
    then (with_home (set_showEmailGate true) w1, [PreventDefault])
    else (w1, []).
Proof.
  open_world w. cbn [home swiperRef hasUnlocked currentIndex]. intros ->.
  unfold at_limit, past_threshold, touchMove_deltaX. handler_unfold.
  destruct hu, (ai =? 9), data as [[[sx|] cx]|], event as [[[|[x] ts]|]];
    handler_unfold; rewrite ?Z.eqb_refl; handler_unfold; try reflexivity.
  destruct (_ <? -50); handler_unfold;
    rewrite ?Z.eqb_refl; handler_unfold; reflexivity.
Qed.

Lemma step_Change w value :
  showEmailGate (home w) = true ->
  step w (Change value) =
    (with_modal (fun _ => {| email := value; error := EmptyString |}) w, []).
Proof.
  open_world w. cbn [home showEmailGate]. intros ->.
  handler_unfold. rewrite ?Z.eqb_refl. destruct hu; handler_unfold; reflexivity.
Qed.

Lemma step_Submit w :
  showEmailGate (home w) = true ->
  step w Submit =
    let t := JsString.trim (email (modal w)) in
    if negb (JsString.truthy t) then
      (with_modal (set_error msg_empty) w, [PreventDefault])
    else if negb (validateEmail t) then
      (with_modal (set_error msg_invalid) w, [PreventDefault])
    else
      (unlock w,
       PreventDefault :: ConsoleLog "Email submitted:" t ::
       (if swiperRef (home w)
        then Update :: (if currentIndex (home w) =? 9
                        then [SetTimeout (SlideTo 10 300) 100] else [])
        else []) ++
       (if negb (hasUnlocked (home w)) && swiperRef (home w)
        then [Update; UpdateSlides] else [])).
Proof.
  open_world w. cbn [home showEmailGate]. intros ->.
  unfold unlock, msg_empty, msg_invalid. handler_unfold.
  destruct (JsString.truthy (JsString.trim em)); handler_unfold;
    rewrite ?Z.eqb_refl; [|destruct hu; handler_unfold; reflexivity].
  destruct (validateEmail (JsString.trim em)); handler_unfold;
    rewrite ?Z.eqb_refl; [|destruct hu; handler_unfold; reflexivity].
  destruct sr, hu, (ci =? 9); handler_unfold;
    rewrite ?Z.eqb_refl; handler_unfold; reflexivity.
Qed.

(* ===================================================================== *)
(** ** The invariant holds in every reachable world *)
(* ===================================================================== *)

Lemma inv_initial : Inv initial.
Proof.
  constructor; unfold initial; handler_unfold; intros;
    try reflexivity; try discriminate; try lia.
Qed.

Lemma inv_carousel_moved w i : Inv w -> Inv (with_swiper (set_activeIndex i) w).
Proof. open_world w. intros H; open_inv H. constructor; handler_unfold; assumption. Qed.

Lemma inv_touch_data w data : Inv w -> Inv (with_swiper (set_touchEventsData data) w).
Proof. open_world w. intros H; open_inv H. constructor; handler_unfold; assumption. Qed.

Lemma inv_modal w f : Inv w -> Inv (with_modal f w).
Proof. open_world w. intros H; open_inv H. constructor; handler_unfold; assumption. Qed.

Lemma inv_gate_opened w :
  Inv w -> hasUnlocked (home w) = false -> swiperRef (home w) = true ->
  Inv (with_home (set_showEmailGate true) w).
Proof.
  open_world w. intros H; open_inv H. handler_unfold. intros -> ->.
  constructor; handler_unfold; auto.
Qed.

Lemma inv_suspend w :
  Inv w -> hasUnlocked (home w) = false -> swiperRef (home w) = true ->
  Inv (suspend w).
Proof.
  intros H Hu Hr. unfold suspend. apply inv_carousel_moved, inv_gate_opened; assumption.
Qed.

Lemma inv_arrive w i :
  Inv w -> swiperRef (home w) = true ->
  negb (hasUnlocked (home w)) && (10 <=? i) = false ->
  Inv (arrive i w).
Proof.
  open_world w. intros H; open_inv H. unfold arrive, refresh. handler_unfold.
  intros -> Hi.
  constructor; handler_unfold; intros; auto.
  - subst hu. simpl in Hi. lia.
  - destruct (bool_decide_reflect (i ∈ vi)); set_solver.
  - destruct (bool_decide_reflect (i ∈ vi)); auto.
Qed.

Lemma inv_mounted w : Inv w -> swiperRef (home w) = false -> Inv (mounted w).
Proof.
  open_world w. intros H; open_inv H. unfold mounted, refresh. handler_unfold.
  intros ->.
  constructor; handler_unfold; intros; auto.
  - destruct (bool_decide_reflect (ci ∈ vi)); set_solver.
  - destruct (bool_decide_reflect (ci ∈ vi)); auto.
Qed.

Lemma inv_unlock w : Inv w -> Inv (unlock w).
Proof.
  open_world w. intros H; open_inv H. unfold unlock. handler_unfold.
  constructor; handler_unfold; intros; try discriminate; auto.
  - subst sr. reflexivity.
  - subst sr. destruct hu; auto.
Qed.

Lemma inv_after w e : Inv w -> Inv (after w e).
Proof.
  intros H. unfold after.
  destruct (deliverable w e) eqn:D; [|rewrite step_undeliverable by exact D; exact H].
  destruct e as [|i|i|data ev|data|v|]; simpl in D.
  - apply negb_true_iff in D. rewrite step_Mount by exact D. apply inv_mounted; assumption.
  - rewrite step_SlideChange by exact D.
    destruct (negb _ && _) eqn:E; [|destruct (i =? _)]; simpl.
    + apply andb_true_iff in E as [E _]. apply negb_true_iff in E.
      apply inv_suspend; assumption.
    + apply inv_carousel_moved; assumption.
    + apply inv_arrive; assumption.
  - rewrite step_SlideChangeTransitionStart by exact D.
    destruct (negb _ && _) eqn:E; simpl.
    + apply andb_true_iff in E as [E _]. apply negb_true_iff in E.
      apply inv_suspend; assumption.
    + apply inv_carousel_moved; assumption.
  - rewrite step_TouchMove by exact D. cbv zeta.
    destruct (at_limit w && _) eqn:E; simpl.
    + unfold at_limit in E. apply andb_true_iff in E as [E _].
      apply andb_true_iff in E as [E _]. apply negb_true_iff in E.
      apply inv_gate_opened; [apply inv_touch_data| |]; assumption.
    + apply inv_touch_data; assumption.
  - rewrite step_TouchEnd by exact D. cbv zeta.
    destruct (at_limit w && _) eqn:E; simpl.
    + unfold at_limit in E. apply andb_true_iff in E as [E _].
      apply andb_true_iff in E as [E _]. apply negb_true_iff in E.
      apply inv_suspend; [apply inv_touch_data| |]; assumption.
    + apply inv_touch_data; assumption.
  - rewrite step_Change by exact D. apply inv_modal; assumption.
  - rewrite step_Submit by exact D. cbv zeta.
    destruct (negb (JsString.truthy _)); [apply inv_modal; assumption|].
    destruct (negb (validateEmail _)); [apply inv_modal; assumption|].
    apply inv_unlock; assumption.
Qed.

(* ===================================================================== *)
(** ** What the email pattern accepts *)
(* ===================================================================== *)

Section EmailPattern.
Import RegExpFacts.

Lemma lang_email_pattern cls s : lang (email_pattern cls) s <-> email_shape cls s.
Proof.
  unfold email_pattern, email_shape. split.
  - intros H.
    apply lang_seq in H as (a & r1 & -> & Ha & H).
    apply lang_seq in H as (x & r2 & -> & Hx & H). apply lang_chr in Hx as ->.
    apply lang_seq in H as (b & r3 & -> & Hb & H).
    apply lang_seq in H as (y & c & -> & Hy & Hc). apply lang_chr in Hy as ->.
    exists a, b, c. rewrite <- !lang_plus_notin. auto.
  - intros (a & b & c & -> & Ha & Hb & Hc).
    apply lang_plus_notin in Ha, Hb, Hc.
    apply lang_seq. exists a, (at_sign :: b ++ full_stop :: c).
    split; [reflexivity|]. split; [exact Ha|].
    apply lang_seq. exists [at_sign], (b ++ full_stop :: c).
    split; [reflexivity|]. split; [apply lang_chr; reflexivity|].
    apply lang_seq. exists b, (full_stop :: c).
    split; [reflexivity|]. split; [exact Hb|].
    apply lang_seq. exists [full_stop], c.
    split; [reflexivity|]. split; [apply lang_chr; reflexivity | exact Hc].
Qed.

Lemma validateEmail_shape s :
  validateEmail s = true <-> email_shape [ASpace; AChar at_sign] s.
Proof.
  unfold validateEmail. rewrite test_lang.
  change emailRegex with (email_pattern [ASpace; AChar at_sign]).
  apply lang_email_pattern.
Qed.

Lemma specPattern_shape s : test specPattern s = true <-> email_shape [ASpace] s.
Proof.
  rewrite test_lang. change specPattern with (email_pattern [ASpace]).
  apply lang_email_pattern.
Qed.

Lemma outside_weaken s : outside [ASpace; AChar at_sign] s -> outside [ASpace] s.
Proof.
  intros [Hne Hall]. split; [exact Hne|].
  eapply List.Forall_impl; [|exact Hall].
  intros c. unfold class_has. simpl. rewrite !orb_false_r.
  intros H. apply orb_false_iff in H as [H _]. exact H.
Qed.

(** Whatever the gate accepts matches the pattern of the specification;
    [two_at_signs] shows that the converse fails. *)
Lemma validateEmail_matches_specPattern s :
  validateEmail s = true -> test specPattern s = true.
Proof.
  rewrite validateEmail_shape, specPattern_shape.
  intros (a & b & c & E & Ha & Hb & Hc).
  exists a, b, c. auto using outside_weaken.
Qed.

End EmailPattern.

Lemma validateEmail_nonempty t : validateEmail t = true -> JsString.truthy t = true.
Proof. destruct t; [discriminate | reflexivity]. Qed.

Lemma truthy_false_iff t : JsString.truthy t = false <-> t = [].
Proof. destruct t; simpl; split; congruence. Qed.

(* ===================================================================== *)
(** ** Facts about single steps *)
(* ===================================================================== *)

Lemma reachable_inv w : reachable w -> Inv w.
Proof. induction 1; [apply inv_initial | apply inv_after; assumption]. Qed.

Lemma reachable_browsing : reachable browsing.
Proof. apply reach_step, reach_initial. Qed.

Lemma reachable_gated : reachable gated.
Proof.
  unfold gated, at_nine, browsing. simpl.
  repeat apply reach_step. apply reach_initial.
Qed.

Lemma step_attempt w e :
  swiperRef (home w) = true -> hasUnlocked (home w) = false -> attempt e ->
  step w e = (suspend w, [SlideTo 9 0]).
Proof.
  intros Hr Hu Ha.
  destruct e as [|i|i| | | |]; simpl in Ha; try contradiction.
  - rewrite step_SlideChange by exact Hr. rewrite Hu.
    apply Z.leb_le in Ha. rewrite Ha. reflexivity.
  - rewrite step_SlideChangeTransitionStart by exact Hr. rewrite Hu.
    apply Z.leb_le in Ha. rewrite Ha. reflexivity.
Qed.

Lemma suspend_suspend w : suspend (suspend w) = suspend w.
Proof. open_world w. reflexivity. Qed.

Lemma attempts_absorbed es :
  forall w, swiperRef (home w) = true -> hasUnlocked (home w) = false ->
  Forall attempt es -> run (suspend w) es = suspend w.
Proof.
  induction es as [|e es IH]; intros w Hr Hu Hes; [reflexivity|].
  inversion Hes as [|? ? He Hes']; subst. simpl.
  unfold after at 1. rewrite step_attempt; try assumption.
  simpl. rewrite suspend_suspend. apply IH; assumption.
Qed.

Lemma unlocked_after w e :
  hasUnlocked (home w) = true ->
  hasUnlocked (home (after w e)) = true /\
  (showEmailGate (home w) = false -> showEmailGate (home (after w e)) = false).
Proof.
  intros Hu. unfold after.
  destruct (deliverable w e) eqn:D; [|rewrite step_undeliverable by exact D; auto].
  destruct e as [|i|i|data ev|data|v|]; simpl in D.
  - apply negb_true_iff in D. rewrite step_Mount by exact D.
    open_world w. simpl in *. subst. split; [reflexivity | auto].
  - rewrite step_SlideChange by exact D. rewrite Hu. simpl.
    destruct (i =? _); open_world w; simpl in *; subst; auto.
  - rewrite step_SlideChangeTransitionStart by exact D. rewrite Hu. simpl.
    open_world w; simpl in *; subst; auto.
  - rewrite step_TouchMove by exact D. unfold at_limit. rewrite Hu. simpl.
    open_world w; simpl in *; subst; auto.
  - rewrite step_TouchEnd by exact D. unfold at_limit. rewrite Hu. simpl.
    open_world w; simpl in *; subst; auto.
  - rewrite step_Change by exact D. open_world w; simpl in *; subst; auto.
  - rewrite step_Submit by exact D. cbv zeta.
    destruct (negb (JsString.truthy _)); [open_world w; simpl in *; subst; auto|].
    destruct (negb (validateEmail _)); open_world w; simpl in *; subst; auto.
Qed.

Lemma last_cons {A} (x d : A) l : List.last (x :: l) d = List.last l x.
Proof.
  revert x d. induction l as [|y l IH]; intros x d; [reflexivity|].
  change (List.last (x :: y :: l) d) with (List.last (y :: l) d).
  rewrite (IH y d), (IH y x). reflexivity.
Qed.

Lemma after_SlideChange_below w t :
  Inv w -> swiperRef (home w) = true -> t < 10 ->
  let w' := after w (SlideChange t) in
  currentIndex (home w') = t /\
  viewedItemsRef (home w') = viewedItemsRef (home w) ∪ {[ t ]} /\
  swiperRef (home w') = true.
Proof.
  intros H Hr Ht. cbv zeta. unfold after. rewrite step_SlideChange by exact Hr.
  assert (E : (10 <=? t) = false) by (apply Z.leb_gt; exact Ht).
  rewrite E, andb_false_r.
  pose proof (inv_seen w H) as Hseen.
  destruct (Z.eqb_spec t (currentIndex (home w))) as [->|Hne]; simpl.
  - open_world w. simpl in *.
    split; [reflexivity|]. split; [set_solver | assumption].
  - open_world w. unfold arrive, refresh. simpl in *.
    split; [reflexivity|]. split; [|assumption].
    destruct (bool_decide_reflect (t ∈ vi)); simpl; set_solver.
Qed.

(** A step either leaves [(hasUnlocked, currentIndex)] alone or ends with
    the carousel flags recomputed from them. *)
Lemma flags_after w e :
  swiperRef (home w) = true ->
  (hasUnlocked (home (after w e)) = hasUnlocked (home w) /\
   currentIndex (home (after w e)) = currentIndex (home w)) \/
  (allowSlideNext (swiper (after w e)) =
     hasUnlocked (home (after w e)) || (currentIndex (home (after w e)) <? 10) /\
   resistanceRatio (swiper (after w e)) =
     (if hasUnlocked (home (after w e)) then 0.85%Q else 0%Q)).
Proof.
  intros Hr. unfold after.
  destruct (deliverable w e) eqn:D;
    [|rewrite step_undeliverable by exact D; left; split; reflexivity].
  destruct e as [|i|i|data ev|data|v|]; simpl in D.
  - rewrite Hr in D. discriminate D.
  - rewrite step_SlideChange by exact Hr.
    destruct (negb _ && _); [same_state w|].
    destruct (Z.eqb_spec i (currentIndex (home w))); [same_state w|].
    right. open_world w. simpl in Hr. subst sr. split; reflexivity.
  - rewrite step_SlideChangeTransitionStart by exact Hr.
    destruct (negb _ && _); same_state w.
  - rewrite step_TouchMove by exact Hr. cbv zeta.
    destruct (at_limit w && _); same_state w.
  - rewrite step_TouchEnd by exact Hr. cbv zeta.
    destruct (at_limit w && _); same_state w.
  - rewrite step_Change by exact D. same_state w.
  - rewrite step_Submit by exact D. cbv zeta.
    destruct (negb (JsString.truthy _)); [same_state w|].
    destruct (negb (validateEmail _)); [same_state w|].
    open_world w. simpl in Hr. subst sr.
    destruct hu; [left | right]; split; reflexivity.
Qed.

Lemma after_Change w raw :
  showEmailGate (home w) = true ->
  home (after w (Change raw)) = home w /\
  swiper (after w (Change raw)) = swiper w /\
  email (modal (after w (Change raw))) = raw.
Proof.
  intros Hg. unfold after. rewrite step_Change by exact Hg.
  open_world w. repeat split.
Qed.

Lemma past_threshold_spec d :
  past_threshold d = true <-> exists x, d = Some x /\ x < -50.
Proof.
  destruct d as [x|]; simpl.
  - rewrite Z.ltb_lt. split; [eauto | intros (y & [= ->] & H); exact H].
  - split; [discriminate | intros (y & [=] & _)].
Qed.

Lemma handleEmailSubmit_result render arg w :
  handleEmailSubmit render arg w =
    (Some tt,
     with_swiper (fun s => if swiperRef (home w) then set_allowSlideNext true s else s)
       (with_home (fun h => set_showEmailGate false (set_hasUnlocked true h)) w),
     ConsoleLog "Email submitted:" arg ::
     (if swiperRef (home w)
      then Update :: (if currentIndex render =? 9 then [deferred_advance] else [])
      else [])).
Proof.
  open_world w. destruct render as [rci rvc rhu rsg rsr rvi].
  unfold deferred_advance. handler_unfold.
  destruct sr, (rci =? 9); handler_unfold; reflexivity.
Qed.

Lemma handle_Submit_returns w : value_of (handle Submit w) = Some tt.
Proof.
  open_world w. handler_unfold.
  destruct (JsString.truthy (JsString.trim em)); handler_unfold; [|reflexivity].
  destruct (validateEmail (JsString.trim em)); handler_unfold; [|reflexivity].
  destruct sr, (ci =? 9); handler_unfold; reflexivity.
Qed.

Lemma rejected_iff w :
  showEmailGate (home w) = true ->
  rejected w <->
  JsString.trim (email (modal w)) = [] \/
  validateEmail (JsString.trim (email (modal w))) = false.
Proof.
  intros Hg. unfold rejected, after. rewrite step_Submit by exact Hg. cbv zeta.
  destruct (JsString.truthy _) eqn:Et; simpl.
  - destruct (validateEmail _) eqn:Ev; simpl.
    + open_world w. simpl. split; [congruence|].
      intros [H|H]; [|discriminate H]. simpl in Et. rewrite H in Et. discriminate Et.
    + open_world w. simpl. split; [auto | discriminate].
  - apply truthy_false_iff in Et. open_world w. simpl. split; [auto | discriminate].
Qed.

(* ===================================================================== *)
(** ** The properties of the controller *)
(* ===================================================================== *)

(** C1. While [hasUnlocked] is false, a slide event ([slideChange] or
    [slideChangeTransitionStart]) that reports an index of 10 or more sets
    [showEmailGate] to true, issues [slideTo(9, 0)] and nothing else, leaves
    the carousel on slide 9 and leaves [currentIndex] as it was; any number
    of further such events leaves the world exactly as it is after the
    first one. *)
Theorem suspension_is_idempotent (w : World) (e : Event) :
  swiperRef (home w) = true -> hasUnlocked (home w) = false -> attempt e ->
  step w e = (suspend w, [SlideTo 9 0]) /\
  showEmailGate (home (after w e)) = true /\
  activeIndex (swiper (after w e)) = 9 /\
  currentIndex (home (after w e)) = currentIndex (home w) /\
  (forall es, Forall attempt es -> run (after w e) es = after w e).
Proof.
  intros Hr Hu Ha. unfold after. rewrite (step_attempt w e Hr Hu Ha). simpl.
  split; [reflexivity|].
  split; [open_world w; reflexivity|].
  split; [open_world w; reflexivity|].
  split; [open_world w; reflexivity|].
  intros es Hes. apply attempts_absorbed; assumption.
Qed.

Lemma suspension_is_idempotent_witness :
  step browsing (SlideChange 10) = (suspend browsing, [SlideTo 9 0]) /\
  showEmailGate (home (after browsing (SlideChange 10))) = true /\
  activeIndex (swiper (after browsing (SlideChange 10))) = 9 /\
  currentIndex (home (after browsing (SlideChange 10))) = currentIndex (home browsing) /\
  (forall es, Forall attempt es ->
     run (after browsing (SlideChange 10)) es = after browsing (SlideChange 10)).
Proof.
  apply (suspension_is_idempotent browsing (SlideChange 10));
    [reflexivity | reflexivity | simpl; lia].
Defined.

(** C2. In every world reachable from the initial one, [currentIndex] is
    at most 9 unless [hasUnlocked] is true, and [showEmailGate] is true only
    while [hasUnlocked] is false. *)
Theorem locked_sessions_stay_below_ten (w : World) :
  reachable w ->
  (hasUnlocked (home w) = false -> currentIndex (home w) <= 9) /\
  (showEmailGate (home w) = true -> hasUnlocked (home w) = false).
Proof.
  intros H. apply reachable_inv in H.
  split; [apply (inv_locked w H) | apply (inv_gate w H)].
Qed.

Lemma locked_sessions_stay_below_ten_witness :
  (hasUnlocked (home gated) = false -> currentIndex (home gated) <= 9) /\
  (showEmailGate (home gated) = true -> hasUnlocked (home gated) = false).
Proof. apply (locked_sessions_stay_below_ten gated). exact reachable_gated. Defined.

(** C4. In a reachable world with the gate open, submitting a text whose
    trimmed form passes [validateEmail] sets [hasUnlocked] to true and
    [showEmailGate] to false, and the timer for [slideTo(10, 300)] is set
    exactly when [currentIndex] is 9 at that moment. *)
Theorem valid_email_unlocks (w : World) (raw : JsString.t) :
  reachable w -> showEmailGate (home w) = true ->
  validateEmail (JsString.trim raw) = true ->
  let typed := after w (Change raw) in
  hasUnlocked (home (after typed Submit)) = true /\
  showEmailGate (home (after typed Submit)) = false /\
  (In deferred_advance (snd (step typed Submit)) <-> currentIndex (home w) = 9).
Proof.
  intros Hreach Hg Hvalid. cbv zeta.
  pose proof (inv_attached w (reachable_inv w Hreach) Hg) as Hr.
  destruct (after_Change w raw Hg) as (Hh & Hs & He).
  set (typed := after w (Change raw)) in *.
  assert (Hg' : showEmailGate (home typed) = true) by (rewrite Hh; exact Hg).
  unfold after. rewrite step_Submit by exact Hg'. cbv zeta.
  rewrite He, Hvalid, (validateEmail_nonempty _ Hvalid), Hh, Hr. simpl.
  split; [|split].
  - destruct typed as [[] [] []]; reflexivity.
  - destruct typed as [[] [] []]; reflexivity.
  - unfold deferred_advance.
    destruct (Z.eqb_spec (currentIndex (home w)) 9) as [E|E];
      destruct (hasUnlocked (home w)); simpl; split; intros H;
      try exact E; try tauto;
      repeat (destruct H as [H|H]; try discriminate H); try contradiction.
Qed.

Lemma valid_email_unlocks_witness :
  hasUnlocked (home (after (after gated (Change sample_email)) Submit)) = true /\
  showEmailGate (home (after (after gated (Change sample_email)) Submit)) = false /\
  (In deferred_advance (snd (step (after gated (Change sample_email)) Submit))
   <-> currentIndex (home gated) = 9).
Proof.
  apply (valid_email_unlocks gated sample_email).
  - exact reachable_gated.
  - vm_compute. reflexivity.
  - vm_compute. reflexivity.
Defined.

(** C5. Once [hasUnlocked] is true it stays true, and no run of events, of
    whatever kind and to whatever index, turns a closed gate on again. *)
Theorem gate_never_reopens (w : World) (es : list Event) :
  hasUnlocked (home w) = true ->
  hasUnlocked (home (run w es)) = true /\
  (showEmailGate (home w) = false -> showEmailGate (home (run w es)) = false).
Proof.
  revert w. induction es as [|e es IH]; intros w Hu; simpl; [auto|].
  destruct (unlocked_after w e Hu) as [Hu' Hg'].
  destruct (IH (after w e) Hu') as [Hu'' Hg'']. auto.
Qed.

Lemma gate_never_reopens_witness :
  hasUnlocked (home (run unlocked (map SlideChange [10; 11; 12]))) = true /\
  (showEmailGate (home unlocked) = false ->
   showEmailGate (home (run unlocked (map SlideChange [10; 11; 12]))) = false).
Proof.
  apply (gate_never_reopens unlocked (map SlideChange [10; 11; 12])).
  vm_compute. reflexivity.
Defined.

(** C6. From a reachable world with the carousel attached, after any run of
    [slideChange] events with targets in [0, 9]: [currentIndex] is the last
    target, the viewed items are those viewed before together with the
    targets, [viewedCount] is their number, that number has not decreased,
    and moving again to an item already viewed does not change it. *)
Theorem visited_set_tracks_targets (w : World) (targets : list Z) :
  reachable w -> swiperRef (home w) = true -> Forall in_first_ten targets ->
  let w' := run w (map SlideChange targets) in
  currentIndex (home w') = List.last targets (currentIndex (home w)) /\
  viewedItemsRef (home w') = viewedItemsRef (home w) ∪ list_to_set targets /\
  viewedCount (home w') = size (viewedItemsRef (home w')) /\
  (size (viewedItemsRef (home w)) <= size (viewedItemsRef (home w')))%nat /\
  (forall t, in_first_ten t -> t ∈ viewedItemsRef (home w') ->
     size (viewedItemsRef (home (after w' (SlideChange t)))) =
     size (viewedItemsRef (home w'))).
Proof.
  intros Hreach Hr Hts. cbv zeta.
  assert (Hinv : Inv w) by (apply reachable_inv; exact Hreach). clear Hreach.
  assert (Hmain :
    currentIndex (home (run w (map SlideChange targets))) =
      List.last targets (currentIndex (home w)) /\
    viewedItemsRef (home (run w (map SlideChange targets))) =
      viewedItemsRef (home w) ∪ list_to_set targets /\
    swiperRef (home (run w (map SlideChange targets))) = true /\
    Inv (run w (map SlideChange targets))).
  { revert w Hr Hinv. induction Hts as [|t ts [_ Ht] _ IH]; intros w Hr Hinv; simpl.
    - split; [reflexivity|]. split; [set_solver|]. split; assumption.
    - destruct (after_SlideChange_below w t Hinv Hr ltac:(lia)) as (Hc & Hv & Hr').
      destruct (IH (after w (SlideChange t)) Hr' (inv_after w _ Hinv))
        as (IHc & IHv & IHr & IHi).
      split; [|split; [|split; assumption]].
      + rewrite IHc, Hc. symmetry. apply last_cons.
      + rewrite IHv, Hv. set_solver. }
  destruct Hmain as (Hc & Hv & Hr' & Hinv').
  split; [exact Hc|]. split; [exact Hv|].
  split; [apply (inv_count _ Hinv')|].
  split.
  - apply subseteq_size. rewrite Hv. set_solver.
  - intros t [_ Ht] Hin.
    destruct (after_SlideChange_below _ t Hinv' Hr' ltac:(lia)) as (_ & Hv' & _).
    rewrite Hv'. f_equal. set_solver.
Qed.

Lemma visited_set_tracks_targets_witness :
  currentIndex (home (run browsing (map SlideChange back_and_forth))) =
    List.last back_and_forth (currentIndex (home browsing)) /\
  viewedItemsRef (home (run browsing (map SlideChange back_and_forth))) =
    viewedItemsRef (home browsing) ∪ list_to_set back_and_forth /\
  viewedCount (home (run browsing (map SlideChange back_and_forth))) =
    size (viewedItemsRef (home (run browsing (map SlideChange back_and_forth)))) /\
  (size (viewedItemsRef (home browsing)) <=
   size (viewedItemsRef (home (run browsing (map SlideChange back_and_forth)))))%nat /\
  (forall t, in_first_ten t ->
     t ∈ viewedItemsRef (home (run browsing (map SlideChange back_and_forth))) ->
     size (viewedItemsRef
             (home (after (run browsing (map SlideChange back_and_forth))
                          (SlideChange t)))) =
     size (viewedItemsRef (home (run browsing (map SlideChange back_and_forth))))).
Proof.
  apply (visited_set_tracks_targets browsing back_and_forth).
  - exact reachable_browsing.
  - reflexivity.
  - unfold in_first_ten, back_and_forth. repeat constructor; lia.
Defined.

(** The example of the specification: moving 3, 2, 3 leaves three items
    viewed, as after 3, 2. *)
Example revisit_3_2_3 :
  viewedCount (home (run browsing (map SlideChange [3; 2]))) = 3%nat /\
  viewedCount (home (run browsing (map SlideChange [3; 2; 3]))) = 3%nat.
Proof. split; vm_compute; reflexivity. Qed.

(** C8. With the carousel attached, whenever a step changes
    [(hasUnlocked, currentIndex)] it ends with [allowSlideNext] equal to
    [hasUnlocked || currentIndex < 10] and [resistanceRatio] equal to 0.85
    when unlocked and 0 when locked; so in a reachable locked world the
    resistance ratio is 0. *)
Theorem carousel_flags_follow_state (w : World) (e : Event) :
  swiperRef (home w) = true ->
  (hasUnlocked (home (after w e)), currentIndex (home (after w e)))
    <> (hasUnlocked (home w), currentIndex (home w)) ->
  allowSlideNext (swiper (after w e)) =
    hasUnlocked (home (after w e)) || (currentIndex (home (after w e)) <? 10) /\
  resistanceRatio (swiper (after w e)) =
    (if hasUnlocked (home (after w e)) then 0.85%Q else 0%Q) /\
  (reachable w -> hasUnlocked (home w) = false -> resistanceRatio (swiper w) = 0%Q).
Proof.
  intros Hr Hchg.
  destruct (flags_after w e Hr) as [[Hu Hc]|[Ha Hq]].
  - exfalso. apply Hchg. rewrite Hu, Hc. reflexivity.
  - split; [exact Ha|]. split; [exact Hq|].
    intros Hreach Hu. apply reachable_inv in Hreach.
    rewrite (inv_resistance w Hreach Hr), Hu. reflexivity.
Qed.

Lemma carousel_flags_follow_state_witness :
  allowSlideNext (swiper (after browsing (SlideChange 4))) =
    hasUnlocked (home (after browsing (SlideChange 4)))
    || (currentIndex (home (after browsing (SlideChange 4))) <? 10) /\
  resistanceRatio (swiper (after browsing (SlideChange 4))) =
    (if hasUnlocked (home (after browsing (SlideChange 4))) then 0.85%Q else 0%Q) /\
  (reachable browsing -> hasUnlocked (home browsing) = false ->
   resistanceRatio (swiper browsing) = 0%Q).
Proof.
  apply (carousel_flags_follow_state browsing (SlideChange 4)).
  - reflexivity.
  - vm_compute. discriminate.
Defined.

(** In terms of the travel each handler computes. Locked, at rest on slide
    9 and with the gate closed: [handleTouchEnd]
    opens the gate, and issues [slideTo(9, 0)], exactly when the gesture
    data has a start coordinate and the travel it computes from it is below
    -50; the carousel stays on slide 9; [handleTouchMove] opens the gate
    exactly when the travel from the start coordinate to the first touch is
    below -50. Without a start coordinate neither opens it. *)
Theorem touch_opens_gate_past_threshold
  (w : World) (data : option TouchEventsData) (event : TouchEvent) :
  swiperRef (home w) = true -> hasUnlocked (home w) = false ->
  activeIndex (swiper w) = 9 -> showEmailGate (home w) = false ->
  (showEmailGate (home (after w (TouchEnd data))) = true <->
     exists deltaX, touchEnd_deltaX data = Some deltaX /\ deltaX < -50) /\
  (In (SlideTo 9 0) (snd (step w (TouchEnd data))) <->
     exists deltaX, touchEnd_deltaX data = Some deltaX /\ deltaX < -50) /\
  activeIndex (swiper (after w (TouchEnd data))) = 9 /\
  (showEmailGate (home (after w (TouchMove data event))) = true <->
     exists deltaX, touchMove_deltaX data event = Some deltaX /\ deltaX < -50).
Proof.
  intros Hr Hu Ha Hg.
  rewrite <- !past_threshold_spec.
  unfold after. rewrite step_TouchEnd, step_TouchMove by exact Hr. cbv zeta.
  unfold at_limit. rewrite Hu, Ha. simpl.
  destruct (past_threshold (touchEnd_deltaX data));
    destruct (past_threshold (touchMove_deltaX data event));
    open_world w; simpl in *; subst; intuition (try discriminate; try contradiction).
Qed.

Lemma touch_opens_gate_past_threshold_witness :
  (showEmailGate (home (after at_nine (TouchEnd swipe_left))) = true <->
     exists deltaX, touchEnd_deltaX swipe_left = Some deltaX /\ deltaX < -50) /\
  (In (SlideTo 9 0) (snd (step at_nine (TouchEnd swipe_left))) <->
     exists deltaX, touchEnd_deltaX swipe_left = Some deltaX /\ deltaX < -50) /\
  activeIndex (swiper (after at_nine (TouchEnd swipe_left))) = 9 /\
  (showEmailGate (home (after at_nine (TouchMove swipe_left finger_at_120))) = true <->
     exists deltaX,
       touchMove_deltaX swipe_left finger_at_120 = Some deltaX /\ deltaX < -50).
Proof.
  apply (touch_opens_gate_past_threshold at_nine swipe_left finger_at_120);
    vm_compute; reflexivity.
Defined.

(** The end point of a gesture is [currentX], unless that is missing or 0:
    then [handleTouchEnd] takes the start point and the travel is 0. *)
Example touchEnd_deltaX_samples :
  touchEnd_deltaX (Some {| startX := Some 200; currentX := Some 120 |}) = Some (-80) /\
  touchEnd_deltaX (Some {| startX := Some 200; currentX := Some 150 |}) = Some (-50) /\
  touchEnd_deltaX (Some {| startX := Some 200; currentX := None |}) = Some 0 /\
  touchEnd_deltaX (Some {| startX := Some 200; currentX := Some 0 |}) = Some 0 /\
  touchEnd_deltaX (Some {| startX := None; currentX := Some 120 |}) = None /\
  touchEnd_deltaX None = None.
Proof. repeat split. Qed.

(** With an end point other than 0 the travel is end minus start. *)
Lemma touchEnd_deltaX_travel (sx cx : Z) :
  cx <> 0 ->
  touchEnd_deltaX (Some {| startX := Some sx; currentX := Some cx |}) = Some (cx - sx).
Proof.
  intros H. simpl. destruct (Z.eqb_spec cx 0); [contradiction | reflexivity].
Qed.

(** Off the end point 0, [handleTouchEnd] goes by the plain travel of the
    gesture, end minus start. *)
Lemma touch_end_follows_plain_travel (w : World) (sx cx : Z) :
  swiperRef (home w) = true -> hasUnlocked (home w) = false ->
  activeIndex (swiper w) = 9 -> showEmailGate (home w) = false -> cx <> 0 ->
  (showEmailGate
     (home (after w (TouchEnd (Some {| startX := Some sx; currentX := Some cx |}))))
     = true <-> cx - sx < -50).
Proof.
  intros Hr Hu Ha Hg Hcx. unfold after. rewrite step_TouchEnd by exact Hr. cbv zeta.
  unfold at_limit. rewrite Hu, Ha. simpl.
  destruct (Z.eqb_spec cx 0); [contradiction|].
  destruct (Z.ltb_spec (cx - sx) (-50)); open_world w; simpl in *; subst;
    split; intros; try assumption; try reflexivity; try lia; discriminate.
Qed.



(** C10. [handleEmailSubmit] checks nothing: for every argument it returns
    normally with [hasUnlocked] true and [showEmailGate] false, and logs the
    argument it was given. The modal alone validates: a submission reaches
    the callback exactly when the trimmed input is non-empty and passes
    [validateEmail], and what the callback then receives is the trimmed
    input. *)
Theorem unlock_callback_trusts_its_caller
  (render : Home) (arg : JsString.t) (w : World) :
  (let r := handleEmailSubmit render arg w in
   value_of r = Some tt /\
   hasUnlocked (home (world_of r)) = true /\
   showEmailGate (home (world_of r)) = false /\
   In (ConsoleLog "Email submitted:" arg) (calls_of r)) /\
  (forall g received,
     showEmailGate (home g) = true ->
     (In (ConsoleLog "Email submitted:" received) (snd (step g Submit)) <->
      received = JsString.trim (email (modal g)) /\
      JsString.truthy received = true /\ validateEmail received = true)).
Proof.
  split.
  - cbv zeta. rewrite handleEmailSubmit_result. open_world w.
    unfold value_of, world_of, calls_of. simpl.
    split; [reflexivity|]. split; [reflexivity|]. split; [reflexivity|].
    left. reflexivity.
  - intros g received Hg. rewrite step_Submit by exact Hg. cbv zeta.
    destruct (JsString.truthy (JsString.trim (email (modal g)))) eqn:Et; simpl.
    2: { split; [intros [H|[]]; discriminate H | intros (-> & H & _); congruence]. }
    destruct (validateEmail (JsString.trim (email (modal g)))) eqn:Ev; simpl.
    2: { split; [intros [H|[]]; discriminate H | intros (-> & _ & H); congruence]. }
    split.
    + intros [H|[H|H]]; [discriminate H | injection H as <-; auto |].
      exfalso. apply in_app_or in H.
      destruct (swiperRef (home g)), (currentIndex (home g) =? 9),
        (hasUnlocked (home g)); simpl in H;
        repeat (destruct H as [H|H]; try discriminate H); try contradiction.
    + intros (-> & _ & _). right. left. reflexivity.
Qed.

(** C3, as stated, fails: with the gate open, ["a@b@c.d"] is turned down,
    although its trimmed form is not empty and matches "non-space
    characters, @, non-space characters, ., non-space characters". *)
Lemma spec_pattern_accepts_what_gate_rejects :
  ~ (rejected (after gated (Change two_at_signs)) <->
     JsString.trim two_at_signs = [] \/
     test specPattern (JsString.trim two_at_signs) = false).
Proof.
  intros [H _].
  assert (R : rejected (after gated (Change two_at_signs))).
  { unfold rejected. vm_compute. discriminate. }
  destruct (H R) as [E|E]; vm_compute in E; discriminate E.
Qed.

(** C3, amended. With the gate open, the text in the input is trimmed and
    turned down exactly when the trimmed text is empty or is not of the
    form "run, @, run, ., run" where each run is non-empty and has neither
    white space nor [@] in it. The handler returns normally in every case,
    and when it turns the text down [hasUnlocked] and [showEmailGate] are
    as before and the message tells which of the two checks failed. *)
Theorem gate_rejects_exactly_malformed (w : World) (raw : JsString.t) :
  showEmailGate (home w) = true ->
  let typed := after w (Change raw) in
  let t := JsString.trim raw in
  (rejected typed <-> t = [] \/ ~ email_shape [ASpace; AChar at_sign] t) /\
  value_of (handle Submit typed) = Some tt /\
  (rejected typed ->
     hasUnlocked (home (after typed Submit)) = hasUnlocked (home w) /\
     showEmailGate (home (after typed Submit)) = showEmailGate (home w) /\
     error (modal (after typed Submit)) =
       if JsString.truthy t then msg_invalid else msg_empty).
Proof.
  intros Hg. cbv zeta.
  destruct (after_Change w raw Hg) as (Hh & Hs & He).
  set (typed := after w (Change raw)) in *.
  assert (Hg' : showEmailGate (home typed) = true) by (rewrite Hh; exact Hg).
  rewrite (rejected_iff typed Hg'), He.
  split; [|split; [apply handle_Submit_returns|]].
  - rewrite <- validateEmail_shape.
    destruct (validateEmail (JsString.trim raw)); intuition congruence.
  - intros Hrej. rewrite <- Hh. unfold after.
    rewrite step_Submit by exact Hg'. cbv zeta. rewrite He.
    destruct (JsString.truthy (JsString.trim raw)) eqn:Et; simpl.
    + destruct Hrej as [E|E]; [rewrite E in Et; discriminate Et|].
      rewrite E. simpl. destruct typed as [[] [] []]. repeat split.
    + destruct typed as [[] [] []]. repeat split.
Qed.

Lemma gate_rejects_exactly_malformed_witness :
  (rejected (after gated (Change not_an_email)) <->
     JsString.trim not_an_email = [] \/
     ~ email_shape [ASpace; AChar at_sign] (JsString.trim not_an_email)) /\
  value_of (handle Submit (after gated (Change not_an_email))) = Some tt /\
  (rejected (after gated (Change not_an_email)) ->
     hasUnlocked (home (after (after gated (Change not_an_email)) Submit)) =
       hasUnlocked (home gated) /\
     showEmailGate (home (after (after gated (Change not_an_email)) Submit)) =
       showEmailGate (home gated) /\
     error (modal (after (after gated (Change not_an_email)) Submit)) =
       if JsString.truthy (JsString.trim not_an_email)
       then msg_invalid else msg_empty).
Proof.
  apply (gate_rejects_exactly_malformed gated not_an_email).
  vm_compute. reflexivity.
Defined.

(** The three rejected inputs of the specification, and an accepted one. *)
Example spec_submissions :
  error (modal (run gated [Change []; Submit])) = msg_empty /\
  error (modal (run gated [Change (JsString.lit "   "); Submit])) = msg_empty /\
  error (modal (run gated [Change not_an_email; Submit])) = msg_invalid /\
  session (run gated [Change not_an_email; Submit]) = session gated /\
  hasUnlocked (home (run gated [Change (JsString.lit " a@b.co "); Submit])) = true.
Proof. split; [|split; [|split; [|split]]]; vm_compute; reflexivity. Qed.

(** C7, as stated, fails: once unlocked, a report of slide 15 of a catalog
    of 15 items moves [currentIndex] to 15; and a report of slide -1 moves
    it to -1. *)
Lemma out_of_range_target_moves_session :
  out_of_range 15 15 = true /\
  session (after unlocked (SlideChange 15)) <> session unlocked /\
  out_of_range 15 (-1) = true /\
  session (after browsing (SlideChange (-1))) <> session browsing.
Proof.
  split; [reflexivity|]. split; [|split; [reflexivity|]].
  - intros H. apply (f_equal (fun s => fst (fst (fst s)))) in H.
    vm_compute in H. discriminate H.
  - intros H. apply (f_equal (fun s => fst (fst (fst s)))) in H.
    vm_compute in H. discriminate H.
Qed.

(** C7, amended. An out-of-range target is handled like any other, there
    being no range check: while locked, a target of 10 or more opens the
    gate and sends the carousel back to slide 9, with [currentIndex], the
    viewed items and [hasUnlocked] unchanged; in every other case (unlocked,
    or a target below 10) [currentIndex] becomes the target, which is added
    to the viewed items when it differs from the previous [currentIndex],
    and [hasUnlocked] and [showEmailGate] are unchanged. *)
Theorem out_of_range_target_is_not_filtered (catalogLength : Z) (w : World) (i : Z) :
  swiperRef (home w) = true -> out_of_range catalogLength i = true ->
  (hasUnlocked (home w) = false -> 10 <= i ->
     step w (SlideChange i) = (suspend w, [SlideTo 9 0]) /\
     session (after w (SlideChange i)) =
       (currentIndex (home w), viewedItemsRef (home w), false, true)) /\
  (hasUnlocked (home w) = true \/ i < 10 ->
     currentIndex (home (after w (SlideChange i))) = i /\
     viewedItemsRef (home (after w (SlideChange i))) =
       (if i =? currentIndex (home w) then viewedItemsRef (home w)
        else {[ i ]} ∪ viewedItemsRef (home w)) /\
     hasUnlocked (home (after w (SlideChange i))) = hasUnlocked (home w) /\
     showEmailGate (home (after w (SlideChange i))) = showEmailGate (home w)).
Proof.
  intros Hr _. split.
  - intros Hu Hi. unfold after.
    rewrite (step_attempt w (SlideChange i) Hr Hu Hi).
    split; [reflexivity|]. open_world w. simpl in Hu. subst hu. reflexivity.
  - intros Hcase. unfold after. rewrite step_SlideChange by exact Hr.
    assert (E : negb (hasUnlocked (home w)) && (10 <=? i) = false).
    { destruct Hcase as [-> | Hi]; [reflexivity|].
      apply andb_false_iff. right. apply Z.leb_gt. exact Hi. }
    rewrite E.
    destruct (Z.eqb_spec i (currentIndex (home w))) as [->|Hne]; simpl.
    + open_world w. repeat split.
    + open_world w. unfold arrive, refresh. simpl.
      split; [reflexivity|]. split; [|split; reflexivity].
      destruct (bool_decide_reflect (i ∈ vi)); simpl; [set_solver | reflexivity].
Qed.

Lemma out_of_range_target_is_not_filtered_witness :
  (hasUnlocked (home unlocked) = false -> 10 <= 15 ->
     step unlocked (SlideChange 15) = (suspend unlocked, [SlideTo 9 0]) /\
     session (after unlocked (SlideChange 15)) =
       (currentIndex (home unlocked), viewedItemsRef (home unlocked), false, true)) /\
  (hasUnlocked (home unlocked) = true \/ 15 < 10 ->
     currentIndex (home (after unlocked (SlideChange 15))) = 15 /\
     viewedItemsRef (home (after unlocked (SlideChange 15))) =
       (if 15 =? currentIndex (home unlocked) then viewedItemsRef (home unlocked)
        else {[ 15 ]} ∪ viewedItemsRef (home unlocked)) /\
     hasUnlocked (home (after unlocked (SlideChange 15))) = hasUnlocked (home unlocked) /\
     showEmailGate (home (after unlocked (SlideChange 15))) =
       showEmailGate (home unlocked)).
Proof.
  apply (out_of_range_target_is_not_filtered 15 unlocked 15);
    vm_compute; reflexivity.
Defined.

(** The end-to-end scenario of the specification: browse to the tenth item,
    ask for the eleventh, submit an address, move on. *)
Example end_to_end :
  viewedCount (home at_nine) = 10%nat /\
  (showEmailGate (home gated), activeIndex (swiper gated), currentIndex (home gated))
    = (true, 9, 9) /\
  (hasUnlocked (home unlocked), showEmailGate (home unlocked)) = (true, false) /\
  In deferred_advance (snd (step (after gated (Change (JsString.lit "a@b.co"))) Submit)) /\
  (currentIndex (home (run unlocked (map SlideChange [10; 11; 12]))),
   showEmailGate (home (run unlocked (map SlideChange [10; 11; 12])))) = (12, false).
Proof.
  split; [|split; [|split; [|split]]]; try (vm_compute; reflexivity).
  vm_compute. auto 10.
Qed.

(* ===================================================================== *)
(** ** Further properties of the page and of the gate *)
(* ===================================================================== *)

(** X1. In every reachable world with the carousel attached,
    [allowSlideNext] is true: the flag never stops a forward swipe, so the
    handlers get to see the attempt at slide 9. *)
Theorem forward_swipe_always_allowed (w : World) :
  reachable w -> swiperRef (home w) = true ->
  allowSlideNext (swiper w) = true.
Proof.
  intros Hreach Hr. apply reachable_inv in Hreach.
  rewrite (inv_forward w Hreach Hr).
  destruct (hasUnlocked (home w)) eqn:Hu; [reflexivity|]. simpl.
  apply Z.ltb_lt. pose proof (inv_locked w Hreach Hu). lia.
Qed.

Lemma forward_swipe_always_allowed_witness : allowSlideNext (swiper gated) = true.
Proof.
  apply (forward_swipe_always_allowed gated); [exact reachable_gated | reflexivity].
Defined.

(** A step changes [hasUnlocked] or closes the gate only through an
    accepted submission; it opens the gate only while locked, at a slide
    report of 10 or more or at a touch past the threshold on slide 9. *)
Lemma step_causes w e :
  (hasUnlocked (home (after w e)) = hasUnlocked (home w) /\
   (showEmailGate (home (after w e)) = showEmailGate (home w) \/
    showEmailGate (home w) = false /\ hasUnlocked (home w) = false /\
    swiperRef (home w) = true /\
    (attempt e \/ at_limit w = true /\ opening_touch e = true))) \/
  (e = Submit /\ showEmailGate (home w) = true /\
   validateEmail (JsString.trim (email (modal w))) = true /\
   hasUnlocked (home (after w e)) = true /\
   showEmailGate (home (after w e)) = false).
Proof.
  unfold after.
  destruct (deliverable w e) eqn:D;
    [|rewrite step_undeliverable by exact D; left; auto].
  destruct e as [|i|i|data ev|data|v|]; simpl in D.
  - apply negb_true_iff in D. rewrite step_Mount by exact D.
    left. open_world w. split; [reflexivity | left; reflexivity].
  - rewrite step_SlideChange by exact D. left.
    destruct (hasUnlocked (home w)) eqn:Hu; simpl.
    + destruct (i =? _); open_world w; simpl in *; auto.
    + destruct (Z.leb_spec 10 i); simpl.
      * open_world w; simpl in *. subst. split; [reflexivity|].
        destruct sg; [left; reflexivity | right; auto 10].
      * destruct (i =? _); open_world w; simpl in *; auto.
  - rewrite step_SlideChangeTransitionStart by exact D. left.
    destruct (hasUnlocked (home w)) eqn:Hu; simpl.
    + open_world w; simpl in *; auto.
    + destruct (Z.leb_spec 10 i); simpl.
      * open_world w; simpl in *. subst. split; [reflexivity|].
        destruct sg; [left; reflexivity | right; auto 10].
      * open_world w; simpl in *; auto.
  - rewrite step_TouchMove by exact D. cbv zeta. left.
    destruct (at_limit w) eqn:L; simpl; [|open_world w; simpl in *; auto].
    destruct (past_threshold _) eqn:P; simpl; [|open_world w; simpl in *; auto].
    pose proof L as L0.
    unfold at_limit in L. apply andb_true_iff in L as [L1 _].
    apply negb_true_iff in L1.
    open_world w; simpl in *. subst. split; [reflexivity|].
    destruct sg; [left; reflexivity | right; auto 10].
  - rewrite step_TouchEnd by exact D. cbv zeta. left.
    destruct (at_limit w) eqn:L; simpl; [|open_world w; simpl in *; auto].
    destruct (past_threshold _) eqn:P; simpl; [|open_world w; simpl in *; auto].
    pose proof L as L0.
    unfold at_limit in L. apply andb_true_iff in L as [L1 _].
    apply negb_true_iff in L1.
    open_world w; simpl in *. subst. split; [reflexivity|].
    destruct sg; [left; reflexivity | right; auto 10].
  - rewrite step_Change by exact D. left. open_world w; simpl in *; auto.
  - rewrite step_Submit by exact D. cbv zeta.
    destruct (JsString.truthy _) eqn:Et; simpl;
      [|left; open_world w; simpl in *; auto].
    destruct (validateEmail _) eqn:Ev; simpl;
      [|left; open_world w; simpl in *; auto].
    right. open_world w; simpl in *. auto.
Qed.

(** X3. A locked session that ends up unlocked has, somewhere in its run,
    a submission made with the gate open, while still locked, of a text
    whose trimmed form passes [validateEmail]. *)
Theorem unlocking_needs_accepted_email (w : World) (es : list Event) :
  hasUnlocked (home w) = false -> hasUnlocked (home (run w es)) = true ->
  exists before later,
    es = before ++ Submit :: later /\
    hasUnlocked (home (run w before)) = false /\
    showEmailGate (home (run w before)) = true /\
    validateEmail (JsString.trim (email (modal (run w before)))) = true.
Proof.
  revert w. induction es as [|e es IH]; intros w Hu Hend; simpl in Hend.
  - congruence.
  - destruct (hasUnlocked (home (after w e))) eqn:Hu'.
    + destruct (step_causes w e) as [[Hsame _]|(-> & Hg & Hv & _)];
        [congruence|].
      exists [], es. auto.
    + destruct (IH (after w e) Hu' Hend) as (b & l & -> & H1 & H2 & H3).
      exists (e :: b), l. auto.
Qed.

Lemma unlocking_needs_accepted_email_witness :
  exists before later,
    [SlideChange 10; Change sample_email; Submit] = before ++ Submit :: later /\
    hasUnlocked (home (run at_nine before)) = false /\
    showEmailGate (home (run at_nine before)) = true /\
    validateEmail (JsString.trim (email (modal (run at_nine before)))) = true.
Proof.
  apply (unlocking_needs_accepted_email at_nine
           [SlideChange 10; Change sample_email; Submit]);
    vm_compute; reflexivity.
Defined.

(** X4. An open gate is closed by one event only: a submission whose
    trimmed text passes [validateEmail]; the same step sets [hasUnlocked]. *)
Theorem gate_closes_only_on_accepted_email (w : World) (e : Event) :
  showEmailGate (home w) = true -> showEmailGate (home (after w e)) = false ->
  e = Submit /\
  validateEmail (JsString.trim (email (modal w))) = true /\
  hasUnlocked (home (after w e)) = true.
Proof.
  intros Hg Hg'.
  destruct (step_causes w e) as [[_ [Hsame|(Hf & _)]]|(-> & _ & Hv & Hu & _)];
    [congruence | congruence | auto].
Qed.

Lemma gate_closes_only_on_accepted_email_witness :
  Submit = Submit /\
  validateEmail (JsString.trim (email (modal (after gated (Change sample_email))))) = true /\
  hasUnlocked (home (after (after gated (Change sample_email)) Submit)) = true.
Proof.
  apply (gate_closes_only_on_accepted_email (after gated (Change sample_email)) Submit);
    vm_compute; reflexivity.
Defined.

(** X5. A closed gate opens only while locked and with the carousel
    attached, and only at a slide event reporting an index of 10 or more or
    at a touch event past the threshold with the carousel on slide 9. *)
Theorem gate_opens_only_at_the_limit (w : World) (e : Event) :
  showEmailGate (home w) = false -> showEmailGate (home (after w e)) = true ->
  hasUnlocked (home w) = false /\ swiperRef (home w) = true /\
  (attempt e \/ at_limit w = true /\ opening_touch e = true).
Proof.
  intros Hg Hg'.
  destruct (step_causes w e) as [[_ [Hsame|(_ & Hu & Hr & Hc)]]|(_ & Hopen & _)];
    [congruence | auto | congruence].
Qed.

Lemma gate_opens_only_at_the_limit_witness :
  hasUnlocked (home at_nine) = false /\ swiperRef (home at_nine) = true /\
  (attempt (TouchEnd swipe_left) \/
   at_limit at_nine = true /\ opening_touch (TouchEnd swipe_left) = true).
Proof.
  apply (gate_opens_only_at_the_limit at_nine (TouchEnd swipe_left));
    vm_compute; reflexivity.
Defined.

Lemma in_two {A} (x a b : A) : In x [a; b] -> x = a \/ x = b.
Proof. intros [H|[H|[]]]; auto. Qed.

(** X6. The only [slideTo] a step issues at once is [slideTo(9, 0)], and
    only while locked; the only timer it sets is the one for
    [slideTo(10, 300)] after 100 ms, and only at a submission that unlocks
    with [currentIndex] at 9. *)
Theorem carousel_is_only_sent_back (w : World) (e : Event) :
  (forall index speed, In (SlideTo index speed) (snd (step w e)) ->
     index = 9 /\ speed = 0 /\ hasUnlocked (home w) = false) /\
  (forall callback ms, In (SetTimeout callback ms) (snd (step w e)) ->
     callback = SlideTo 10 300 /\ ms = 100 /\ e = Submit /\
     currentIndex (home w) = 9 /\ hasUnlocked (home (after w e)) = true).
Proof.
  unfold after.
  destruct (deliverable w e) eqn:D;
    [|rewrite step_undeliverable by exact D; split; intros ? ? []].
  destruct e as [|i|i|data ev|data|v|]; simpl in D.
  - apply negb_true_iff in D. rewrite step_Mount by exact D.
    split; intros ? ? H; apply in_two in H as [H|H]; discriminate H.
  - rewrite step_SlideChange by exact D.
    destruct (hasUnlocked (home w)); simpl;
      [|destruct (10 <=? i); simpl]; try destruct (i =? _); simpl;
      split; intros ? ? H;
      repeat (destruct H as [H|H]; try discriminate H); try contradiction.
    injection H as <- <-. auto.
  - rewrite step_SlideChangeTransitionStart by exact D.
    destruct (hasUnlocked (home w)); simpl;
      [|destruct (10 <=? i); simpl];
      split; intros ? ? H;
      repeat (destruct H as [H|H]; try discriminate H); try contradiction.
    injection H as <- <-. auto.
  - rewrite step_TouchMove by exact D. cbv zeta.
    destruct (at_limit w && _); simpl; split; intros ? ? H;
      repeat (destruct H as [H|H]; try discriminate H); try contradiction.
  - rewrite step_TouchEnd by exact D. cbv zeta.
    destruct (at_limit w && _) eqn:L; simpl; split; intros ? ? H;
      repeat (destruct H as [H|H]; try discriminate H); try contradiction.
    injection H as <- <-. unfold at_limit in L.
    apply andb_true_iff in L as [L _]. apply andb_true_iff in L as [L _].
    apply negb_true_iff in L. auto.
  - rewrite step_Change by exact D. split; intros ? ? [].
  - rewrite step_Submit by exact D. cbv zeta.
    destruct (negb (JsString.truthy _)); simpl.
    { split; intros ? ? H; destruct H as [H|[]]; discriminate H. }
    destruct (negb (validateEmail _)); simpl.
    { split; intros ? ? H; destruct H as [H|[]]; discriminate H. }
    destruct (swiperRef (home w)), (Z.eqb_spec (currentIndex (home w)) 9),
      (hasUnlocked (home w)); simpl; split; intros ? ? H;
      repeat (destruct H as [H|H]; try discriminate H); try contradiction.
    all: injection H as <- <-; open_world w; simpl in *; auto.
Qed.

Lemma first_ten_spec i : i ∈ first_ten <-> 0 <= i <= 9.
Proof.
  unfold first_ten. rewrite elem_of_list_to_set, list_elem_of_In. simpl. lia.
Qed.

Lemma size_first_ten : size first_ten = 10%nat.
Proof. vm_compute. reflexivity. Qed.

(** Where the viewed items of a step come from. *)
Lemma viewed_after w e j :
  Inv w -> j ∈ viewedItemsRef (home (after w e)) ->
  j ∈ viewedItemsRef (home w) \/
  (e = SlideChange j /\ (hasUnlocked (home w) = true \/ j < 10)).
Proof.
  intros HI. pose proof (inv_seen w HI) as Hseen. unfold after.
  destruct (deliverable w e) eqn:D;
    [|rewrite step_undeliverable by exact D; auto].
  destruct e as [|i|i|data ev|data|v|]; simpl in D.
  - apply negb_true_iff in D. rewrite step_Mount by exact D.
    open_world w. unfold mounted, refresh. simpl in *.
    destruct (bool_decide_reflect (ci ∈ vi)); simpl; [auto | contradiction].
  - rewrite step_SlideChange by exact D.
    destruct (hasUnlocked (home w)) eqn:Hu; simpl.
    + destruct (i =? _); [open_world w; simpl; auto|].
      open_world w. unfold arrive, refresh. simpl in *.
      destruct (bool_decide_reflect (i ∈ vi)); simpl; [auto|].
      rewrite elem_of_union, elem_of_singleton. intros [->|H]; auto.
    + destruct (Z.leb_spec 10 i); simpl; [open_world w; simpl; auto|].
      destruct (i =? _); [open_world w; simpl; auto|].
      open_world w. unfold arrive, refresh. simpl in *.
      destruct (bool_decide_reflect (i ∈ vi)); simpl; [auto|].
      rewrite elem_of_union, elem_of_singleton. intros [->|H0]; auto.
  - rewrite step_SlideChangeTransitionStart by exact D.
    destruct (negb _ && _); open_world w; simpl; auto.
  - rewrite step_TouchMove by exact D. cbv zeta.
    destruct (at_limit w && _); open_world w; simpl; auto.
  - rewrite step_TouchEnd by exact D. cbv zeta.
    destruct (at_limit w && _); open_world w; simpl; auto.
  - rewrite step_Change by exact D. open_world w; simpl; auto.
  - rewrite step_Submit by exact D. cbv zeta.
    destruct (negb (JsString.truthy _)); [open_world w; simpl; auto|].
    destruct (negb (validateEmail _)); open_world w; simpl; auto.
Qed.

Lemma locked_before w e :
  hasUnlocked (home (after w e)) = false -> hasUnlocked (home w) = false.
Proof.
  intros H. destruct (hasUnlocked (home w)) eqn:Hu; [|reflexivity].
  destruct (unlocked_after w e Hu) as [Hu' _]. congruence.
Qed.

Lemma locked_views_run es :
  forall w, Inv w -> Forall reports_slide es ->
  (hasUnlocked (home w) = false -> viewedItemsRef (home w) ⊆ first_ten) ->
  hasUnlocked (home (run w es)) = false ->
  Inv (run w es) /\ viewedItemsRef (home (run w es)) ⊆ first_ten.
Proof.
  induction es as [|e es IH]; intros w HI Hes Hsub Hu; simpl in *.
  - auto.
  - inversion Hes as [|? ? He Hes']; subst.
    apply IH; [apply inv_after; exact HI | exact Hes' | | exact Hu].
    intros Hu' j Hj.
    pose proof (locked_before w e Hu') as Hu0.
    destruct (viewed_after w e j HI Hj) as [Hin|(-> & Hcase)].
    + apply Hsub; assumption.
    + apply first_ten_spec. simpl in He.
      destruct Hcase as [Hc|Hc]; [congruence | lia].
Qed.

(** X2. As long as the carousel reports no negative index, a session that
    is still locked has viewed slides 0 to 9 only, and [viewedCount] is at
    most 10. *)
Theorem locked_session_views_at_most_ten (es : list Event) :
  Forall reports_slide es ->
  hasUnlocked (home (run initial es)) = false ->
  viewedItemsRef (home (run initial es)) ⊆ first_ten /\
  (viewedCount (home (run initial es)) <= 10)%nat.
Proof.
  intros Hes Hu.
  destruct (locked_views_run es initial inv_initial Hes) as [HI Hsub];
    [|exact Hu|].
  - intros _ j Hj. apply first_ten_spec.
    change (viewedItemsRef (home initial)) with ({[ 0 ]} : gset Z) in Hj.
    apply elem_of_singleton in Hj. lia.
  - split; [exact Hsub|].
    rewrite (inv_count _ HI), <- size_first_ten.
    apply subseteq_size. exact Hsub.
Qed.

Lemma locked_session_views_at_most_ten_witness :
  viewedItemsRef (home (run initial busy_session)) ⊆ first_ten /\
  (viewedCount (home (run initial busy_session)) <= 10)%nat.
Proof.
  apply (locked_session_views_at_most_ten busy_session).
  - unfold busy_session. repeat constructor; simpl; lia.
  - vm_compute. reflexivity.
Defined.

Lemma trimStart_clean l :
  Forall (fun c => JsString.is_space c = false) l -> JsString.trimStart l = l.
Proof. destruct 1 as [|c l Hc _]; simpl; [reflexivity | rewrite Hc; reflexivity]. Qed.

Lemma trim_clean l :
  Forall (fun c => JsString.is_space c = false) l -> JsString.trim l = l.
Proof.
  intros H. unfold JsString.trim, JsString.trimEnd.
  rewrite (trimStart_clean l H), trimStart_clean, rev_involutive; [reflexivity|].
  apply List.Forall_rev. exact H.
Qed.

Lemma outside_facts s :
  outside [ASpace; AChar at_sign] s ->
  (1 <= length s)%nat /\
  Forall (fun c => JsString.is_space c = false) s /\
  count_occ N.eq_dec s at_sign = 0%nat.
Proof.
  intros [Hne Hall]. split; [destruct s; [congruence | simpl; lia]|].
  clear Hne. induction Hall as [|c l Hc _ [IH1 IH2]]; [split; [constructor | reflexivity]|].
  unfold class_has in Hc. simpl in Hc. rewrite orb_false_r in Hc.
  apply orb_false_iff in Hc as [Hs Ha]. apply N.eqb_neq in Ha.
  split; [constructor; assumption|].
  simpl. destruct (N.eq_dec c at_sign); [congruence | exact IH2].
Qed.

(** X9. A text that passes [validateEmail] has no white space in it,
    exactly one [@], a dot, at least five characters, and is left as it is
    by [trim]. *)
Theorem accepted_address_is_clean (s : JsString.t) :
  validateEmail s = true ->
  Forall (fun c => JsString.is_space c = false) s /\
  count_occ N.eq_dec s at_sign = 1%nat /\
  In full_stop s /\
  (5 <= length s)%nat /\
  JsString.trim s = s.
Proof.
  intros H. apply validateEmail_shape in H as (a & b & c & -> & Ha & Hb & Hc).
  apply outside_facts in Ha as (La & Sa & Ca).
  apply outside_facts in Hb as (Lb & Sb & Cb).
  apply outside_facts in Hc as (Lc & Sc & Cc).
  assert (Hclean : Forall (fun c => JsString.is_space c = false)
                     (a ++ at_sign :: b ++ full_stop :: c)).
  { apply Forall_app. split; [exact Sa|]. constructor; [reflexivity|].
    apply Forall_app. split; [exact Sb|]. constructor; [reflexivity | exact Sc]. }
  split; [exact Hclean|]. split; [|split; [|split]].
  - rewrite count_occ_app. simpl.
    destruct (N.eq_dec at_sign at_sign); [|congruence].
    rewrite count_occ_app. simpl.
    destruct (N.eq_dec full_stop at_sign); [discriminate|]. lia.
  - apply in_or_app. right. right. apply in_or_app. right. left. reflexivity.
  - rewrite length_app. simpl. rewrite length_app. simpl. lia.
  - apply trim_clean. exact Hclean.
Qed.

Lemma accepted_address_is_clean_witness :
  Forall (fun c => JsString.is_space c = false) sample_email /\
  count_occ N.eq_dec sample_email at_sign = 1%nat /\
  In full_stop sample_email /\
  (5 <= length sample_email)%nat /\
  JsString.trim sample_email = sample_email.
Proof.
  apply (accepted_address_is_clean sample_email). vm_compute. reflexivity.
Defined.

Lemma trimStart_starts_clean l : starts_clean (JsString.trimStart l).
Proof.
  induction l as [|c l IH]; simpl; [exact I|].
  destruct (JsString.is_space c) eqn:E; [exact IH | exact E].
Qed.

Lemma trimStart_fixed l : starts_clean l -> JsString.trimStart l = l.
Proof. destruct l as [|c l]; simpl; [reflexivity | intros ->; reflexivity]. Qed.

Lemma trimStart_split l :
  exists ws, l = ws ++ JsString.trimStart l /\
             Forall (fun c => JsString.is_space c = true) ws.
Proof.
  induction l as [|c l (ws & E & H)]; simpl.
  - exists []. split; [reflexivity | constructor].
  - destruct (JsString.is_space c) eqn:Ec.
    + exists (c :: ws). split; [simpl; congruence | constructor; assumption].
    + exists []. split; [reflexivity | constructor].
Qed.

Lemma trimEnd_starts_clean l : starts_clean l -> starts_clean (JsString.trimEnd l).
Proof.
  intros H. unfold JsString.trimEnd.
  destruct (trimStart_split (rev l)) as (ws & E & Hws).
  apply (f_equal (@rev N)) in E. rewrite rev_involutive, rev_app_distr in E.
  destruct (rev (JsString.trimStart (rev l))) as [|c r]; [exact I|].
  rewrite E in H. exact H.
Qed.

Lemma trimEnd_fixed l : starts_clean (rev l) -> JsString.trimEnd l = l.
Proof.
  intros H. unfold JsString.trimEnd. rewrite trimStart_fixed by exact H.
  apply rev_involutive.
Qed.

Lemma trim_idempotent s : JsString.trim (JsString.trim s) = JsString.trim s.
Proof.
  unfold JsString.trim at 1.
  rewrite trimStart_fixed.
  - apply trimEnd_fixed. unfold JsString.trim, JsString.trimEnd.
    rewrite rev_involutive. apply trimStart_starts_clean.
  - unfold JsString.trim. apply trimEnd_starts_clean, trimStart_starts_clean.
Qed.

(** The outcome of a submission, seen from outside the modal's input. *)
Lemma submit_outcome a b :
  showEmailGate (home a) = true -> home b = home a -> swiper b = swiper a ->
  JsString.trim (email (modal b)) = JsString.trim (email (modal a)) ->
  home (after b Submit) = home (after a Submit) /\
  swiper (after b Submit) = swiper (after a Submit) /\
  error (modal (after b Submit)) = error (modal (after a Submit)) /\
  snd (step b Submit) = snd (step a Submit).
Proof.
  intros Hg Hh Hs He.
  assert (Hg' : showEmailGate (home b) = true) by (rewrite Hh; exact Hg).
  unfold after. rewrite (step_Submit a Hg), (step_Submit b Hg'). cbv zeta.
  rewrite He, Hh.
  destruct (negb (JsString.truthy _));
    [|destruct (negb (validateEmail _))];
    destruct a as [ha sa ma], b as [hb sb mb]; simpl in *; subst;
    destruct ma, mb; auto.
Qed.

(** X10. White space around the typed text does not matter: with the gate
    open, submitting a text and submitting its trimmed form lead to the same
    session state, the same carousel, the same message and the same calls. *)
Theorem padding_does_not_matter (w : World) (raw : JsString.t) :
  showEmailGate (home w) = true ->
  let plain := after w (Change (JsString.trim raw)) in
  let padded := after w (Change raw) in
  home (after padded Submit) = home (after plain Submit) /\
  swiper (after padded Submit) = swiper (after plain Submit) /\
  error (modal (after padded Submit)) = error (modal (after plain Submit)) /\
  snd (step padded Submit) = snd (step plain Submit).
Proof.
  intros Hg. cbv zeta.
  destruct (after_Change w raw Hg) as (Hh & Hs & He).
  destruct (after_Change w (JsString.trim raw) Hg) as (Hh' & Hs' & He').
  apply submit_outcome.
  - rewrite Hh'. exact Hg.
  - congruence.
  - congruence.
  - rewrite He, He'. symmetry. apply trim_idempotent.
Qed.

Lemma padding_does_not_matter_witness :
  home (after (after gated (Change padded_email)) Submit) =
    home (after (after gated (Change (JsString.trim padded_email))) Submit) /\
  swiper (after (after gated (Change padded_email)) Submit) =
    swiper (after (after gated (Change (JsString.trim padded_email))) Submit) /\
  error (modal (after (after gated (Change padded_email)) Submit)) =
    error (modal (after (after gated (Change (JsString.trim padded_email))) Submit)) /\
  snd (step (after gated (Change padded_email)) Submit) =
    snd (step (after gated (Change (JsString.trim padded_email))) Submit).
Proof.
  apply (padding_does_not_matter gated padded_email). vm_compute. reflexivity.
Defined.

(** X11. With the gate open, a submission that is turned down leaves the
    typed text in the input, leaves the page state and the carousel
    untouched and issues [preventDefault] alone; one that is accepted
    empties the input and shows no message. *)
Theorem failed_submission_keeps_text (w : World) :
  showEmailGate (home w) = true ->
  (rejected w ->
     email (modal (after w Submit)) = email (modal w) /\
     home (after w Submit) = home w /\
     swiper (after w Submit) = swiper w /\
     snd (step w Submit) = [PreventDefault]) /\
  (~ rejected w ->
     modal (after w Submit) = {| email := []; error := EmptyString |}).
Proof.
  intros Hg. rewrite (rejected_iff w Hg). unfold after.
  rewrite (step_Submit w Hg). cbv zeta.
  destruct (JsString.truthy _) eqn:Et; simpl.
  - destruct (validateEmail _) eqn:Ev; simpl.
    + split; [|intros _; open_world w; reflexivity].
      intros [E|E]; [rewrite E in Et; discriminate Et | discriminate E].
    + split; [intros _; open_world w; auto | intros H; exfalso; auto].
  - apply truthy_false_iff in Et.
    split; [intros _; open_world w; auto | intros H; exfalso; auto].
Qed.

Lemma failed_submission_keeps_text_witness :
  (rejected (after gated (Change not_an_email)) ->
     email (modal (after (after gated (Change not_an_email)) Submit)) =
       email (modal (after gated (Change not_an_email))) /\
     home (after (after gated (Change not_an_email)) Submit) =
       home (after gated (Change not_an_email)) /\
     swiper (after (after gated (Change not_an_email)) Submit) =
       swiper (after gated (Change not_an_email)) /\
     snd (step (after gated (Change not_an_email)) Submit) = [PreventDefault]) /\
  (~ rejected (after gated (Change not_an_email)) ->
     modal (after (after gated (Change not_an_email)) Submit) =
       {| email := []; error := EmptyString |}).
Proof.
  apply (failed_submission_keeps_text (after gated (Change not_an_email))).
  vm_compute. reflexivity.
Defined.

(** X12. With the gate open on a text the gate turns down, any run of
    submissions and of typing further such texts leaves the page state and
    the carousel as they were: the gate stays open and the session locked. *)
Theorem futile_form_events_change_nothing (w : World) (es : list Event) :
  showEmailGate (home w) = true ->
  validateEmail (JsString.trim (email (modal w))) = false ->
  Forall futile es ->
  home (run w es) = home w /\ swiper (run w es) = swiper w /\
  validateEmail (JsString.trim (email (modal (run w es)))) = false.
Proof.
  intros Hg Hv Hes. revert w Hg Hv.
  induction Hes as [|e es He _ IH]; intros w Hg Hv; simpl; [auto|].
  assert (Hstep : home (after w e) = home w /\ swiper (after w e) = swiper w /\
            validateEmail (JsString.trim (email (modal (after w e)))) = false).
  { destruct e as [| | | | |v|]; simpl in He; try contradiction.
    - destruct (after_Change w v Hg) as (Hh & Hs & Hm). rewrite Hm. auto.
    - unfold after. rewrite (step_Submit w Hg). cbv zeta. rewrite Hv.
      destruct (negb (JsString.truthy _)); simpl; open_world w; simpl in *; auto. }
  destruct Hstep as (Hh & Hs & Hv').
  destruct (IH (after w e)) as (IHh & IHs & IHv); [rewrite Hh; exact Hg | exact Hv'|].
  split; [congruence|]. split; [congruence | exact IHv].
Qed.

Lemma futile_form_events_change_nothing_witness :
  home (run (after gated (Change not_an_email)) futile_tries) =
    home (after gated (Change not_an_email)) /\
  swiper (run (after gated (Change not_an_email)) futile_tries) =
    swiper (after gated (Change not_an_email)) /\
  validateEmail
    (JsString.trim
       (email (modal (run (after gated (Change not_an_email)) futile_tries)))) = false.
Proof.
  apply (futile_form_events_change_nothing
           (after gated (Change not_an_email)) futile_tries).
  - vm_compute. reflexivity.
  - vm_compute. reflexivity.
  - unfold futile_tries. repeat constructor.
Defined.

(** X13. In every reachable world, a progress indicator that shows the
    lock shows an item number of at most 10, the gate form is never on
    screen together with the unlocked badge, and the badge is the unlocked
    one exactly when [hasUnlocked] is true. *)
Theorem locked_view_stays_within_ten (catalogLength : Z) (w : World) :
  reachable w ->
  let view := Home_view catalogLength w in
  (badge (progress view) = BadgeLocked -> itemNumber (progress view) <= 10) /\
  (gateForm view <> None -> badge (progress view) = BadgeLocked) /\
  (badge (progress view) = BadgeUnlocked <-> hasUnlocked (home w) = true).
Proof.
  intros Hreach. apply reachable_inv in Hreach. cbv zeta.
  unfold Home_view, ProgressIndicator, EmailGateModal. simpl.
  split; [|split].
  - destruct (hasUnlocked (home w)) eqn:Hu; [discriminate|].
    intros _. pose proof (inv_locked w Hreach Hu). lia.
  - destruct (showEmailGate (home w)) eqn:Hg; simpl; [|congruence].
    rewrite (inv_gate w Hreach Hg). reflexivity.
  - destruct (hasUnlocked (home w)); split; congruence.
Qed.

Lemma locked_view_stays_within_ten_witness :
  (badge (progress (Home_view 15 gated)) = BadgeLocked ->
   itemNumber (progress (Home_view 15 gated)) <= 10) /\
  (gateForm (Home_view 15 gated) <> None ->
   badge (progress (Home_view 15 gated)) = BadgeLocked) /\
  (badge (progress (Home_view 15 gated)) = BadgeUnlocked <->
   hasUnlocked (home gated) = true).
Proof. apply (locked_view_stays_within_ten 15 gated). exact reachable_gated. Defined.

Lemma touch_away_from_limit w e :
  swiperRef (home w) = true -> at_limit w = false -> touch_event e ->
  home (after w e) = home w /\
  activeIndex (swiper (after w e)) = activeIndex (swiper w) /\
  snd (step w e) = [].
Proof.
  intros Hr Hl He. unfold after.
  destruct e as [| | |data ev|data| |]; simpl in He; try contradiction.
  - rewrite step_TouchMove by exact Hr. cbv zeta. rewrite Hl. simpl.
    open_world w. auto.
  - rewrite step_TouchEnd by exact Hr. cbv zeta. rewrite Hl. simpl.
    open_world w. auto.
Qed.

(** X7. With the carousel attached but not both locked and on slide 9, no
    run of touch events changes the page state or the active slide, and a
    touch event issues no call: the touch handlers act at the limit only. *)
Theorem touches_inert_away_from_limit (w : World) (es : list Event) :
  swiperRef (home w) = true -> at_limit w = false -> Forall touch_event es ->
  home (run w es) = home w /\
  activeIndex (swiper (run w es)) = activeIndex (swiper w) /\
  (forall e, touch_event e -> snd (step w e) = []).
Proof.
  intros Hr Hl Hes.
  split; [|split].
  3: { intros e He. apply (touch_away_from_limit w e Hr Hl He). }
  all: revert w Hr Hl; induction Hes as [|e es He _ IH]; intros w Hr Hl;
       simpl; [reflexivity|].
  all: destruct (touch_away_from_limit w e Hr Hl He) as (Hh & Ha & _).
  all: rewrite IH;
       [assumption | rewrite Hh; exact Hr
       | unfold at_limit in *; rewrite Hh, Ha; exact Hl].
Qed.

Lemma touches_inert_away_from_limit_witness :
  home (run browsing [TouchMove swipe_left finger_at_120; TouchEnd swipe_left])
    = home browsing /\
  activeIndex (swiper (run browsing
                  [TouchMove swipe_left finger_at_120; TouchEnd swipe_left]))
    = activeIndex (swiper browsing) /\
  (forall e, touch_event e -> snd (step browsing e) = []).
Proof.
  apply (touches_inert_away_from_limit browsing
           [TouchMove swipe_left finger_at_120; TouchEnd swipe_left]).
  - reflexivity.
  - reflexivity.
  - repeat constructor.
Defined.

Lemma handleTouchMove_throws (render : Home) (event : TouchEvent) (w : World) :
  value_of (handleTouchMove render event w) = None <->
     hasUnlocked render = false /\ activeIndex (swiper w) = 9 /\
     unreadable (touchEventsData (swiper w)) event.
Proof.
  open_world w. destruct render as [rci rvc rhu rsg rsr rvi].
  destruct event as [ts]. unfold unreadable. handler_unfold.
  destruct rhu; handler_unfold.
  { split; [discriminate | intros (H & _); discriminate H]. }
  destruct (Z.eqb_spec ai 9) as [->|Hne]; handler_unfold.
  2: { split; [discriminate | intros (_ & H & _); contradiction]. }
  destruct ts as [ts|]; handler_unfold.
  2: { split; [auto | reflexivity]. }
  destruct ted as [[[sx|] cx]|]; handler_unfold.
  2: { split; [discriminate|].
       intros (_ & _ & [H|(_ & d & x & [= <-] & H)]); discriminate H. }
  2: { split; [discriminate|].
       intros (_ & _ & [H|(_ & d & x & H & _)]); discriminate H. }
  destruct ts as [|[x] ts]; handler_unfold.
  - split; [|reflexivity].
    intros _. split; [reflexivity|]. split; [reflexivity|]. right.
    split; [reflexivity|]. eexists _, sx. split; reflexivity.
  - destruct (x - sx <? -50); handler_unfold;
      (split; [discriminate | intros (_ & _ & [H|(H & _)]); discriminate H]).
Qed.

Lemma handle_TouchMove_value w data ev :
  value_of (handle (TouchMove data ev) w) =
  value_of (handleTouchMove (home w) ev (with_swiper (set_touchEventsData data) w)).
Proof.
  unfold handle, bind, get, modify, value_of. simpl.
  destruct (handleTouchMove _ _ _) as [[v w'] o]. reflexivity.
Qed.

Lemma unreadable_not_past data ev :
  unreadable data ev -> past_threshold (touchMove_deltaX data ev) = false.
Proof.
  unfold touchMove_deltaX.
  intros [H|(H & _)]; rewrite H; destruct data as [[[?|] ?]|]; reflexivity.
Qed.

(** X8. The one exception a handler can raise is [handleTouchMove]'s,
    locked and on slide 9: when the event has no [touches] (line 136), or
    has an empty list of them while the gesture data has a start coordinate
    (line 139). It is raised before any update, so the page state is as
    before and no call is issued. *)
Theorem only_touch_move_can_throw (w : World) (e : Event) :
  (value_of (handle e w) = None <->
   exists data event,
     e = TouchMove data event /\
     hasUnlocked (home w) = false /\ activeIndex (swiper w) = 9 /\
     unreadable data event) /\
  (value_of (handle e w) = None ->
   home (after w e) = home w /\ snd (step w e) = []).
Proof.
  assert (Hno : forall P : Prop,
            value_of (handle e w) = Some tt ->
            (forall data event, e <> TouchMove data event) ->
            (value_of (handle e w) = None <->
             exists data event,
               e = TouchMove data event /\
               hasUnlocked (home w) = false /\ activeIndex (swiper w) = 9 /\
               unreadable data event) /\
            (value_of (handle e w) = None -> P)).
  { intros P Hv Hne. rewrite Hv. split; [split|]; try discriminate.
    intros (data & event & E & _). destruct (Hne _ _ E). }
  destruct e as [|i|i|data ev|data|v|].
  - apply Hno; [|discriminate]. open_world w. handler_unfold.
    destruct (bool_decide (ci ∈ vi)); handler_unfold; reflexivity.
  - apply Hno; [|discriminate]. open_world w. handler_unfold.
    destruct hu, (10 <=? i); handler_unfold; reflexivity.
  - apply Hno; [|discriminate]. open_world w. handler_unfold.
    destruct hu, (10 <=? i); handler_unfold; reflexivity.
  - clear Hno. rewrite handle_TouchMove_value, handleTouchMove_throws.
    assert (Hsame : hasUnlocked (home w) = false /\
                    activeIndex (swiper (with_swiper (set_touchEventsData data) w)) = 9 /\
                    unreadable
                      (touchEventsData (swiper (with_swiper (set_touchEventsData data) w)))
                      ev <->
                    hasUnlocked (home w) = false /\ activeIndex (swiper w) = 9 /\
                    unreadable data ev)
      by (open_world w; reflexivity).
    rewrite Hsame. clear Hsame.
    split.
    + split.
      * intros H. exists data, ev. split; [reflexivity | exact H].
      * intros (data' & ev' & [= <- <-] & H). exact H.
    + intros (Hu & Ha & Hread).
      destruct (deliverable w (TouchMove data ev)) eqn:D;
        [|unfold after; rewrite step_undeliverable by exact D; auto].
      simpl in D. unfold after. rewrite step_TouchMove by exact D. cbv zeta.
      rewrite (unreadable_not_past data ev Hread), andb_false_r.
      open_world w. auto.
  - apply Hno; [|discriminate]. open_world w. handler_unfold.
    destruct hu, (ai =? 9), data as [[[sx|] cx]|]; handler_unfold; try reflexivity.
    destruct (_ <? -50); handler_unfold; reflexivity.
  - apply Hno; [|discriminate]. open_world w. reflexivity.
  - apply Hno; [|discriminate]. apply handle_Submit_returns.
Qed.
